(** * The chat client of [frontend/app/page.tsx]: session store,
      persistence and the question/answer exchange

    The component [Home] keeps four pieces of React state ([sessions],
    [currentSessionId], [input], [loading]) and mirrors [sessions] into
    [localStorage] under the key [STORAGE_SESSIONS_KEY].  This development
    embeds:

    - JavaScript strings as sequences of UTF-16 code units;
    - the two platform functions the component relies on, [JSON.stringify]
      and [JSON.parse], following ECMA-262 (QuoteJSONString, the JSON
      grammar);
    - the handlers of the component as functions from the state captured by
      the render they were created in to the list of actions they issue;
    - the two effects ([load] and [persist]) and the commit cycle of React
      that runs them.
*)

From Stdlib Require Import NArith ZArith Ascii String Lia DecimalN.
From stdpp Require Import gmap list strings.

Local Open Scope N_scope.

(** ** JavaScript strings *)

(** A JavaScript string is a finite sequence of 16-bit code units.
    [s.length] is [length s], [s[i]] is the [i]-th code unit. *)
Abbreviation jsstring := (list N).

(** An ASCII literal of the source as a sequence of code units. *)
Definition str (s : string) : jsstring :=
  map N_of_ascii (list_ascii_of_string s).

Module Chars.
Definition TAB : N := 9.
Definition LF : N := 10.
Definition CR : N := 13.
Definition SPACE : N := 32.
Definition QUOTE : N := 34.       (* the double quote *)
Definition COMMA : N := 44.
Definition MINUS : N := 45.
Definition COLON : N := 58.
Definition LBRACKET : N := 91.
Definition BACKSLASH : N := 92.
Definition RBRACKET : N := 93.
Definition LBRACE : N := 123.
Definition RBRACE : N := 125.
End Chars.
Import Chars.

(** ** JSON text of a string: QuoteJSONString (ECMA-262, 25.5.2.3) *)

Definition is_leading_surrogate (c : N) : bool := (55296 <=? c) && (c <=? 56319).
Definition is_trailing_surrogate (c : N) : bool := (56320 <=? c) && (c <=? 57343).

(** One lowercase hexadecimal digit. *)
Definition hex_digit (d : N) : N := if d <? 10 then 48 + d else 87 + d.

(** UnicodeEscape: backslash, [u], four lowercase hexadecimal digits. *)
Definition unicode_escape (c : N) : jsstring :=
  [BACKSLASH; 117; hex_digit (c / 4096); hex_digit ((c / 256) mod 16);
   hex_digit ((c / 16) mod 16); hex_digit (c mod 16)].

(** A code point that is not a surrogate: the two-character escapes of
    Table 75, a unicode escape below U+0020, the code unit itself
    otherwise. *)
Definition quote_char (c : N) : jsstring :=
  if c =? 8 then [BACKSLASH; 98]
  else if c =? 9 then [BACKSLASH; 116]
  else if c =? 10 then [BACKSLASH; 110]
  else if c =? 12 then [BACKSLASH; 102]
  else if c =? 13 then [BACKSLASH; 114]
  else if c =? QUOTE then [BACKSLASH; QUOTE]
  else if c =? BACKSLASH then [BACKSLASH; BACKSLASH]
  else if c <? 32 then unicode_escape c
  else [c].

(** The string is read code point by code point: a leading surrogate
    followed by a trailing one is a pair and is copied; any other surrogate
    is alone and is escaped. *)
Fixpoint quote_body (s : jsstring) : jsstring :=
  match s with
  | [] => []
  | c :: rest =>
      if is_leading_surrogate c then
        match rest with
        | d :: rest' =>
            if is_trailing_surrogate d then c :: d :: quote_body rest'
            else unicode_escape c ++ quote_body rest
        | [] => unicode_escape c
        end
      else if is_trailing_surrogate c then unicode_escape c ++ quote_body rest
      else quote_char c ++ quote_body rest
  end.

Definition QuoteJSONString (s : jsstring) : jsstring :=
  QUOTE :: quote_body s ++ [QUOTE].

(** ** Reading a JSON string (the JSONString production) *)

Definition hex_value (c : N) : option N :=
  if (48 <=? c) && (c <=? 57) then Some (c - 48)
  else if (97 <=? c) && (c <=? 102) then Some (c - 87)
  else if (65 <=? c) && (c <=? 70) then Some (c - 55)
  else None.

Definition hex4 (h1 h2 h3 h4 : N) : option N :=
  match hex_value h1, hex_value h2, hex_value h3, hex_value h4 with
  | Some a, Some b, Some c, Some d => Some (4096 * a + 256 * b + 16 * c + d)
  | _, _, _, _ => None
  end.

(** The character after a backslash, [u] apart. *)
Definition unescape (e : N) : option N :=
  if e =? QUOTE then Some QUOTE
  else if e =? BACKSLASH then Some BACKSLASH
  else if e =? 47 then Some 47
  else if e =? 98 then Some 8
  else if e =? 102 then Some 12
  else if e =? 110 then Some 10
  else if e =? 114 then Some 13
  else if e =? 116 then Some 9
  else None.

Definition cons_char (c : N) (r : option (jsstring * jsstring))
  : option (jsstring * jsstring) :=
  match r with
  | Some (s, rest) => Some (c :: s, rest)
  | None => None
  end.

(** The characters after the opening quote, up to and including the closing
    one.  [None] is a syntax error. *)
Fixpoint parse_string_body (s : jsstring) : option (jsstring * jsstring) :=
  match s with
  | [] => None
  | c :: rest =>
      if c =? QUOTE then Some ([], rest)
      else if c =? BACKSLASH then
        match rest with
        | e :: rest1 =>
            if e =? 117 then
              match rest1 with
              | h1 :: h2 :: h3 :: h4 :: rest2 =>
                  match hex4 h1 h2 h3 h4 with
                  | Some u => cons_char u (parse_string_body rest2)
                  | None => None
                  end
              | _ => None
              end
            else
              match unescape e with
              | Some u => cons_char u (parse_string_body rest1)
              | None => None
              end
        | [] => None
        end
      else if c <? 32 then None
      else cons_char c (parse_string_body rest)
  end.

(** *** Reading back a quoted string *)

Lemma hex_value_digit (d : N) : d < 16 -> hex_value (hex_digit d) = Some d.
Proof.
  intros Hd. unfold hex_value, hex_digit.
  destruct (N.ltb_spec d 10).
  - replace ((48 <=? 48 + d) && (48 + d <=? 57)) with true.
    + f_equal. lia.
    + symmetry. apply andb_true_iff. split; apply N.leb_le; lia.
  - replace ((48 <=? 87 + d) && (87 + d <=? 57)) with false.
    + replace ((97 <=? 87 + d) && (87 + d <=? 102)) with true.
      * f_equal. lia.
      * symmetry. apply andb_true_iff. split; apply N.leb_le; lia.
    + symmetry. apply andb_false_iff. right. apply N.leb_gt. lia.
Qed.

Lemma hex4_unicode_escape (c : N) :
  c < 65536 ->
  hex4 (hex_digit (c / 4096)) (hex_digit ((c / 256) mod 16))
       (hex_digit ((c / 16) mod 16)) (hex_digit (c mod 16)) = Some c.
Proof.
  intros Hc. unfold hex4.
  rewrite !hex_value_digit.
  - f_equal. zify. Z.to_euclidean_division_equations. lia.
  - apply N.mod_lt; lia.
  - apply N.mod_lt; lia.
  - apply N.mod_lt; lia.
  - apply N.Div0.div_lt_upper_bound; lia.
Qed.

Lemma parse_string_body_literal (c : N) (t : jsstring) :
  c <> QUOTE -> c <> BACKSLASH -> 32 <= c ->
  parse_string_body (c :: t) = cons_char c (parse_string_body t).
Proof.
  intros Hq Hb Hc. simpl.
  destruct (N.eqb_spec c QUOTE); [contradiction|].
  destruct (N.eqb_spec c BACKSLASH); [contradiction|].
  destruct (N.ltb_spec c 32); [lia|reflexivity].
Qed.

Lemma parse_string_body_unicode_escape (c : N) (t : jsstring) :
  c < 65536 ->
  parse_string_body (unicode_escape c ++ t) = cons_char c (parse_string_body t).
Proof.
  intros Hc. unfold unicode_escape. cbn [app parse_string_body].
  change (BACKSLASH =? QUOTE) with false.
  change (BACKSLASH =? BACKSLASH) with true.
  change (117 =? 117) with true. cbv iota.
  rewrite hex4_unicode_escape by assumption. reflexivity.
Qed.

Lemma parse_string_body_quote_char (c : N) (t : jsstring) :
  parse_string_body (quote_char c ++ t) = cons_char c (parse_string_body t).
Proof.
  unfold quote_char.
  repeat match goal with
  | |- context [N.eqb c ?k] => destruct (N.eqb_spec c k) as [->|]; [reflexivity|]
  end.
  destruct (N.ltb_spec c 32).
  - apply parse_string_body_unicode_escape. lia.
  - apply parse_string_body_literal; assumption.
Qed.

Lemma surrogate_literal (c : N) :
  is_leading_surrogate c || is_trailing_surrogate c = true ->
  c <> QUOTE /\ c <> BACKSLASH /\ 32 <= c /\ c < 65536.
Proof.
  unfold is_leading_surrogate, is_trailing_surrogate, QUOTE, BACKSLASH.
  rewrite orb_true_iff, !andb_true_iff, !N.leb_le. lia.
Qed.

(** Reading the text that [QuoteJSONString] wrote gives the string back,
    whatever follows the closing quote. *)
Lemma parse_string_body_quote_body (s rest : jsstring) :
  parse_string_body (quote_body s ++ QUOTE :: rest) = Some (s, rest).
Proof.
  remember (length s) as n eqn:Hn.
  revert s Hn. induction n as [n IH] using lt_wf_ind. intros s Hn.
  destruct s as [|c s1]; [reflexivity|].
  cbn [quote_body].
  destruct (is_leading_surrogate c) eqn:Hlead.
  - destruct (surrogate_literal c) as (Hq & Hb & H32 & H16);
      [rewrite Hlead; reflexivity|].
    destruct s1 as [|d s2].
    + rewrite parse_string_body_unicode_escape by assumption. reflexivity.
    + destruct (is_trailing_surrogate d) eqn:Htrail.
      * destruct (surrogate_literal d) as (Hq' & Hb' & H32' & _);
          [rewrite Htrail; apply orb_true_r|].
        cbn [app].
        rewrite parse_string_body_literal by assumption.
        rewrite parse_string_body_literal by assumption.
        rewrite (IH (length s2)) by (simpl in Hn; first [lia | reflexivity]).
        reflexivity.
      * rewrite <- app_assoc.
        rewrite parse_string_body_unicode_escape by assumption.
        rewrite (IH (length (d :: s2))) by (simpl in Hn |- *; first [lia | reflexivity]).
        reflexivity.
  - destruct (is_trailing_surrogate c) eqn:Htrail.
    + destruct (surrogate_literal c) as (Hq & Hb & H32 & H16);
        [rewrite Htrail; apply orb_true_r|].
      rewrite <- app_assoc.
      rewrite parse_string_body_unicode_escape by assumption.
      rewrite (IH (length s1)) by (simpl in Hn; first [lia | reflexivity]).
      reflexivity.
    + rewrite <- app_assoc. rewrite parse_string_body_quote_char.
      rewrite (IH (length s1)) by (simpl in Hn; first [lia | reflexivity]).
      reflexivity.
Qed.

(** ** JSON values *)

(** The values [JSON.parse] builds and [JSON.stringify] writes.  A number
    is kept as its literal: no operation of the component computes on one.
    An object is its list of own properties in insertion order (the
    reordering of integer-like keys is not modelled: no object of the
    component has such a key). *)
#[warnings="-register-all"]
Inductive json : Type :=
| JNull
| JBool (b : bool)
| JNum (lit : jsstring)
| JStr (s : jsstring)
| JArr (items : list json)
| JObj (members : list (jsstring * json)).

(** ** [JSON.stringify] (one argument: no indentation, no replacer) *)

Definition join_commas (parts : list jsstring) : jsstring :=
  match parts with
  | [] => []
  | p :: ps => p ++ flat_map (fun q => COMMA :: q) ps
  end.

Fixpoint stringify (j : json) : jsstring :=
  match j with
  | JNull => str "null"
  | JBool true => str "true"
  | JBool false => str "false"
  | JNum lit => lit
  | JStr s => QuoteJSONString s
  | JArr items => LBRACKET :: join_commas (map stringify items) ++ [RBRACKET]
  | JObj members =>
      LBRACE ::
      join_commas
        (map (fun '(k, v) => QuoteJSONString k ++ COLON :: stringify v) members)
      ++ [RBRACE]
  end.

(** ** [JSON.parse] *)

(** The parser recurses on a fuel; [OutOfFuel] is kept apart from
    [SyntaxError] so that a rejected text is known to be rejected by the
    grammar ([JSON_parse_fuel] below: the fuel [JSON_parse] gives is
    always enough). *)
Inductive result (A : Type) : Type :=
| Ok (a : A)
| SyntaxError
| OutOfFuel.
Arguments Ok {A} a.
Arguments SyntaxError {A}.
Arguments OutOfFuel {A}.

Definition is_ws (c : N) : bool :=
  (c =? TAB) || (c =? LF) || (c =? CR) || (c =? SPACE).

Fixpoint skip_ws (s : jsstring) : jsstring :=
  match s with
  | c :: rest => if is_ws c then skip_ws rest else s
  | [] => []
  end.

(** [expect lit s]: [s] without its prefix [lit]. *)
Fixpoint expect (lit s : jsstring) : option jsstring :=
  match lit, s with
  | [], _ => Some s
  | l :: lit', c :: s' => if l =? c then expect lit' s' else None
  | _ :: _, [] => None
  end.

Definition is_digit (c : N) : bool := (48 <=? c) && (c <=? 57).

Fixpoint span_digits (s : jsstring) : jsstring * jsstring :=
  match s with
  | c :: rest =>
      if is_digit c then
        let '(ds, r) := span_digits rest in (c :: ds, r)
      else ([], s)
  | [] => ([], [])
  end.

(** One or more digits. *)
Definition digits1 (s : jsstring) : option (jsstring * jsstring) :=
  match span_digits s with
  | ([], _) => None
  | (ds, r) => Some (ds, r)
  end.

(** JSONNumber: [-]? int frac? exp?; each part returns its literal and the
    rest. *)
Definition number_sign (s : jsstring) : jsstring * jsstring :=
  match s with
  | c :: r => if c =? MINUS then ([c], r) else ([], s)
  | [] => ([], s)
  end.

Definition number_int (s : jsstring) : option (jsstring * jsstring) :=
  match s with
  | c :: r =>
      if c =? 48 then Some ([c], r)
      else if is_digit c then
        let '(ds, r') := span_digits r in Some (c :: ds, r')
      else None
  | [] => None
  end.

Definition number_frac (s : jsstring) : option (jsstring * jsstring) :=
  match s with
  | d :: r =>
      if d =? 46 then
        match digits1 r with
        | Some (ds, r') => Some (d :: ds, r')
        | None => None
        end
      else Some ([], s)
  | [] => Some ([], s)
  end.

Definition number_sign_exp (s : jsstring) : jsstring * jsstring :=
  match s with
  | g :: r => if (g =? 43) || (g =? MINUS) then ([g], r) else ([], s)
  | [] => ([], s)
  end.

Definition number_exp (s : jsstring) : option (jsstring * jsstring) :=
  match s with
  | e :: r =>
      if (e =? 101) || (e =? 69) then
        let '(sg, r1) := number_sign_exp r in
        match digits1 r1 with
        | Some (ds, r2) => Some (e :: sg ++ ds, r2)
        | None => None
        end
      else Some ([], s)
  | [] => Some ([], s)
  end.

Definition parse_number (s : jsstring) : option (jsstring * jsstring) :=
  let '(sign, s1) := number_sign s in
  match number_int s1 with
  | Some (ip, s2) =>
      match number_frac s2 with
      | Some (fp, s3) =>
          match number_exp s3 with
          | Some (ep, s4) => Some (sign ++ ip ++ fp ++ ep, s4)
          | None => None
          end
      | None => None
      end
  | None => None
  end.

(** CreateDataProperty on an object under construction: a key already
    present keeps its place and takes the new value. *)
Fixpoint obj_set (k : jsstring) (v : json) (ms : list (jsstring * json))
  : list (jsstring * json) :=
  match ms with
  | [] => [(k, v)]
  | (k', v') :: t =>
      if decide (k = k') then (k, v) :: t else (k', v') :: obj_set k v t
  end.

Definition make_object (raw : list (jsstring * json)) : json :=
  JObj (fold_left (fun acc kv => obj_set kv.1 kv.2 acc) raw []).

Section Items.
(** The value parser one fuel below. *)
Variable pv : jsstring -> result (json * jsstring).

(** The elements of a non-empty array, after the bracket, up to and
    including the closing bracket. *)
Fixpoint parse_elements (n : nat) (s : jsstring)
  : result (list json * jsstring) :=
  match n with
  | O => OutOfFuel
  | S n' =>
      match pv s with
      | Ok (v, r) =>
          match skip_ws r with
          | c :: r' =>
              if c =? COMMA then
                match parse_elements n' r' with
                | Ok (vs, r'') => Ok (v :: vs, r'')
                | SyntaxError => SyntaxError
                | OutOfFuel => OutOfFuel
                end
              else if c =? RBRACKET then Ok ([v], r')
              else SyntaxError
          | [] => SyntaxError
          end
      | SyntaxError => SyntaxError
      | OutOfFuel => OutOfFuel
      end
  end.

(** The members of a non-empty object, after the brace, up to and
    including the closing brace. *)
Fixpoint parse_members (n : nat) (s : jsstring)
  : result (list (jsstring * json) * jsstring) :=
  match n with
  | O => OutOfFuel
  | S n' =>
      match skip_ws s with
      | q :: s1 =>
          if q =? QUOTE then
            match parse_string_body s1 with
            | Some (k, s2) =>
                match skip_ws s2 with
                | c :: s3 =>
                    if c =? COLON then
                      match pv s3 with
                      | Ok (v, r) =>
                          match skip_ws r with
                          | c' :: r' =>
                              if c' =? COMMA then
                                match parse_members n' r' with
                                | Ok (ms, r'') => Ok ((k, v) :: ms, r'')
                                | SyntaxError => SyntaxError
                                | OutOfFuel => OutOfFuel
                                end
                              else if c' =? RBRACE then Ok ([(k, v)], r')
                              else SyntaxError
                          | [] => SyntaxError
                          end
                      | SyntaxError => SyntaxError
                      | OutOfFuel => OutOfFuel
                      end
                    else SyntaxError
                | [] => SyntaxError
                end
            | None => SyntaxError
            end
          else SyntaxError
      | [] => SyntaxError
      end
  end.
End Items.

Definition keyword (lit : string) (v : json) (s : jsstring)
  : result (json * jsstring) :=
  match expect (str lit) s with
  | Some r => Ok (v, r)
  | None => SyntaxError
  end.

Fixpoint parse_value (fuel : nat) (s : jsstring) : result (json * jsstring) :=
  match fuel with
  | O => OutOfFuel
  | S fuel' =>
      match skip_ws s with
      | [] => SyntaxError
      | c :: rest =>
          if c =? QUOTE then
            match parse_string_body rest with
            | Some (v, r) => Ok (JStr v, r)
            | None => SyntaxError
            end
          else if c =? LBRACKET then
            match skip_ws rest with
            | c' :: r' =>
                if c' =? RBRACKET then Ok (JArr [], r')
                else
                  match parse_elements (parse_value fuel') (S (length rest)) rest with
                  | Ok (vs, r) => Ok (JArr vs, r)
                  | SyntaxError => SyntaxError
                  | OutOfFuel => OutOfFuel
                  end
            | [] => SyntaxError
            end
          else if c =? LBRACE then
            match skip_ws rest with
            | c' :: r' =>
                if c' =? RBRACE then Ok (JObj [], r')
                else
                  match parse_members (parse_value fuel') (S (length rest)) rest with
                  | Ok (ms, r) => Ok (make_object ms, r)
                  | SyntaxError => SyntaxError
                  | OutOfFuel => OutOfFuel
                  end
            | [] => SyntaxError
            end
          else if c =? 110 then keyword "ull" JNull rest
          else if c =? 116 then keyword "rue" (JBool true) rest
          else if c =? 102 then keyword "alse" (JBool false) rest
          else if (c =? MINUS) || is_digit c then
            match parse_number (c :: rest) with
            | Some (lit, r) => Ok (JNum lit, r)
            | None => SyntaxError
            end
          else SyntaxError
      end
  end.

(** [JSON.parse(text)]: one value, white space around it, nothing else. *)
Definition JSON_parse (text : jsstring) : result json :=
  match parse_value (S (length text)) text with
  | Ok (v, r) =>
      match skip_ws r with
      | [] => Ok v
      | _ :: _ => SyntaxError
      end
  | SyntaxError => SyntaxError
  | OutOfFuel => OutOfFuel
  end.


(** *** The fuel of [JSON_parse] is enough *)

Lemma skip_ws_length (s : jsstring) : (length (skip_ws s) <= length s)%nat.
Proof.
  induction s as [|c s IH]; simpl; [lia|].
  destruct (is_ws c); simpl; lia.
Qed.

Lemma skip_ws_cons_length (s : jsstring) (c : N) (r : jsstring) :
  skip_ws s = c :: r -> (length r < length s)%nat.
Proof.
  intros H. pose proof (skip_ws_length s) as Hl. rewrite H in Hl. simpl in Hl. lia.
Qed.

Lemma cons_char_Some c o (v r : jsstring) :
  cons_char c o = Some (v, r) -> exists v', o = Some (v', r) /\ v = c :: v'.
Proof.
  destruct o as [[v' r']|]; simpl; intros H; [|discriminate].
  injection H as <- <-. eauto.
Qed.

Lemma parse_string_body_length (s v r : jsstring) :
  parse_string_body s = Some (v, r) -> (length r < length s)%nat.
Proof.
  remember (length s) as n eqn:Hn.
  revert s v r Hn. induction n as [n IH] using lt_wf_ind. intros s v r Hn.
  destruct s as [|c s1]; [discriminate|]. simpl.
  destruct (c =? QUOTE).
  { intros H. injection H as <- <-. simpl in Hn. lia. }
  destruct (c =? BACKSLASH).
  - destruct s1 as [|e s2]; [discriminate|].
    destruct (e =? 117).
    + destruct s2 as [|h1 [|h2 [|h3 [|h4 s3]]]]; try discriminate.
      destruct (hex4 h1 h2 h3 h4); [|discriminate].
      intros H. apply cons_char_Some in H as (v' & H & _).
      apply (IH (length s3)) in H; simpl in *; lia.
    + destruct (unescape e); [|discriminate].
      intros H. apply cons_char_Some in H as (v' & H & _).
      apply (IH (length s2)) in H; simpl in *; lia.
  - destruct (c <? 32); [discriminate|].
    intros H. apply cons_char_Some in H as (v' & H & _).
    apply (IH (length s1)) in H; simpl in *; lia.
Qed.

Lemma expect_length (lit s r : jsstring) :
  expect lit s = Some r -> (length r <= length s)%nat.
Proof.
  revert s. induction lit as [|l lit IH]; intros s; simpl.
  - intros H. injection H as <-. lia.
  - destruct s as [|c s]; [discriminate|].
    destruct (l =? c); [|discriminate].
    intros H. apply IH in H. simpl. lia.
Qed.

Lemma span_digits_length (s ds r : jsstring) :
  span_digits s = (ds, r) -> (length r <= length s)%nat.
Proof.
  revert ds r. induction s as [|c s IH]; intros ds r; simpl.
  - intros H. injection H as <- <-. simpl. lia.
  - destruct (is_digit c).
    + destruct (span_digits s) as [ds' r'] eqn:E.
      intros H. injection H as <- <-. specialize (IH _ _ eq_refl). lia.
    + intros H. injection H as <- <-. simpl. lia.
Qed.

Lemma digits1_length (s ds r : jsstring) :
  digits1 s = Some (ds, r) -> (length r <= length s)%nat.
Proof.
  unfold digits1. destruct (span_digits s) as [ds' r'] eqn:E.
  apply span_digits_length in E.
  destruct ds'; [discriminate|]. intros H. injection H as <- <-. exact E.
Qed.

Lemma number_sign_length (s sg r : jsstring) :
  number_sign s = (sg, r) -> (length r <= length s)%nat.
Proof.
  unfold number_sign. destruct s as [|c s]; [|destruct (c =? MINUS)];
    intros H; injection H as <- <-; simpl; lia.
Qed.

Lemma number_sign_exp_length (s sg r : jsstring) :
  number_sign_exp s = (sg, r) -> (length r <= length s)%nat.
Proof.
  unfold number_sign_exp. destruct s as [|c s]; [|destruct ((c =? 43) || (c =? MINUS))];
    intros H; injection H as <- <-; simpl; lia.
Qed.

Lemma number_int_length (s ip r : jsstring) :
  number_int s = Some (ip, r) -> (length r <= length s)%nat.
Proof.
  unfold number_int. destruct s as [|c s]; [discriminate|].
  destruct (c =? 48).
  - intros H. injection H as <- <-. simpl. lia.
  - destruct (is_digit c); [|discriminate].
    destruct (span_digits s) as [ds r'] eqn:E. apply span_digits_length in E.
    intros H. injection H as <- <-. simpl. lia.
Qed.

Lemma number_frac_length (s fp r : jsstring) :
  number_frac s = Some (fp, r) -> (length r <= length s)%nat.
Proof.
  unfold number_frac. destruct s as [|c s].
  - intros H. injection H as <- <-. lia.
  - destruct (c =? 46).
    + destruct (digits1 s) as [[ds r']|] eqn:E; [|discriminate].
      apply digits1_length in E.
      intros H. injection H as <- <-. simpl. lia.
    + intros H. injection H as <- <-. lia.
Qed.

Lemma number_exp_length (s ep r : jsstring) :
  number_exp s = Some (ep, r) -> (length r <= length s)%nat.
Proof.
  unfold number_exp. destruct s as [|c s].
  - intros H. injection H as <- <-. lia.
  - destruct ((c =? 101) || (c =? 69)).
    + destruct (number_sign_exp s) as [sg r1] eqn:E1.
      apply number_sign_exp_length in E1.
      destruct (digits1 r1) as [[ds r']|] eqn:E; [|discriminate].
      apply digits1_length in E.
      intros H. injection H as <- <-. simpl. lia.
    + intros H. injection H as <- <-. lia.
Qed.

Lemma parse_number_length (s lit r : jsstring) :
  parse_number s = Some (lit, r) -> (length r <= length s)%nat.
Proof.
  unfold parse_number.
  destruct (number_sign s) as [sg s1] eqn:E1. apply number_sign_length in E1.
  destruct (number_int s1) as [[ip s2]|] eqn:E2; [|discriminate].
  apply number_int_length in E2.
  destruct (number_frac s2) as [[fp s3]|] eqn:E3; [|discriminate].
  apply number_frac_length in E3.
  destruct (number_exp s3) as [[ep s4]|] eqn:E4; [|discriminate].
  apply number_exp_length in E4.
  intros H. injection H as <- <-. lia.
Qed.

(** [pv] neither runs out of fuel nor returns more than it was given, on
    every text shorter than [L]. *)
Definition bounded {A : Type} (pv : jsstring -> result (A * jsstring)) (L : nat)
  : Prop :=
  forall s, (length s < L)%nat ->
    pv s <> OutOfFuel /\
    forall v r, pv s = Ok (v, r) -> (length r <= length s)%nat.

(** A branch that ends in [SyntaxError]. *)
Local Ltac rejected := split; [discriminate | intros ? ? [=]].

Lemma parse_elements_bounded pv (L : nat) :
  bounded pv L ->
  forall n s, (length s < L)%nat -> (length s < n)%nat ->
    parse_elements pv n s <> OutOfFuel /\
    forall vs r, parse_elements pv n s = Ok (vs, r) -> (length r <= length s)%nat.
Proof.
  intros Hpv. induction n as [|n IH]; intros s HL Hn; [lia|].
  simpl. destruct (Hpv s HL) as [Hfuel Hlen].
  destruct (pv s) as [[v r]| |]; [|rejected|contradiction].
  specialize (Hlen v r eq_refl).
  destruct (skip_ws r) as [|c r'] eqn:Ews; [rejected|].
  apply skip_ws_cons_length in Ews.
  destruct (c =? COMMA).
  - destruct (IH r') as [Hf Hl]; [lia|lia|].
    destruct (parse_elements pv n r') as [[vs r'']| |];
      [|rejected|contradiction].
    split; [discriminate|]. intros ? ? [= <- <-].
    specialize (Hl _ _ eq_refl). lia.
  - destruct (c =? RBRACKET); [|rejected].
    split; [discriminate|]. intros ? ? [= <- <-]. lia.
Qed.

Lemma parse_members_bounded pv (L : nat) :
  bounded pv L ->
  forall n s, (length s < L)%nat -> (length s < n)%nat ->
    parse_members pv n s <> OutOfFuel /\
    forall ms r, parse_members pv n s = Ok (ms, r) -> (length r <= length s)%nat.
Proof.
  intros Hpv. induction n as [|n IH]; intros s HL Hn; [lia|].
  simpl.
  destruct (skip_ws s) as [|q s1] eqn:E0; [rejected|].
  apply skip_ws_cons_length in E0.
  destruct (q =? QUOTE); [|rejected].
  destruct (parse_string_body s1) as [[k s2]|] eqn:E1;
    [|rejected].
  apply parse_string_body_length in E1.
  destruct (skip_ws s2) as [|c s3] eqn:E2; [rejected|].
  apply skip_ws_cons_length in E2.
  destruct (c =? COLON); [|rejected].
  destruct (Hpv s3) as [Hfuel Hlen]; [lia|].
  destruct (pv s3) as [[v r]| |]; [|rejected|contradiction].
  specialize (Hlen v r eq_refl).
  destruct (skip_ws r) as [|c' r'] eqn:Ews; [rejected|].
  apply skip_ws_cons_length in Ews.
  destruct (c' =? COMMA).
  - destruct (IH r') as [Hf Hl]; [lia|lia|].
    destruct (parse_members pv n r') as [[ms r'']| |];
      [|rejected|contradiction].
    split; [discriminate|]. intros ? ? [= <- <-].
    specialize (Hl _ _ eq_refl). lia.
  - destruct (c' =? RBRACE); [|rejected].
    split; [discriminate|]. intros ? ? [= <- <-]. lia.
Qed.

Lemma keyword_bounded (lit : string) (v : json) (s : jsstring) :
  keyword lit v s <> OutOfFuel /\
  forall v' r, keyword lit v s = Ok (v', r) -> (length r <= length s)%nat.
Proof.
  unfold keyword. destruct (expect (str lit) s) as [r|] eqn:E; [|rejected].
  apply expect_length in E.
  split; [discriminate|]. intros ? ? [= <- <-]. exact E.
Qed.

Lemma parse_value_bounded (fuel : nat) : bounded (parse_value fuel) fuel.
Proof.
  induction fuel as [|fuel IH]; intros s Hs; [lia|].
  cbn [parse_value].
  destruct (skip_ws s) as [|c rest] eqn:E0; [rejected|].
  apply skip_ws_cons_length in E0.
  destruct (c =? QUOTE).
  { destruct (parse_string_body rest) as [[v r]|] eqn:E1; [|rejected].
    apply parse_string_body_length in E1.
    split; [discriminate|]. intros ? ? [= <- <-]. lia. }
  destruct (c =? LBRACKET).
  { destruct (skip_ws rest) as [|c' r'] eqn:E1; [rejected|].
    apply skip_ws_cons_length in E1.
    destruct (c' =? RBRACKET).
    - split; [discriminate|]. intros ? ? [= <- <-]. lia.
    - destruct (parse_elements_bounded _ _ IH (S (length rest)) rest) as [Hf Hl];
        [lia|lia|].
      destruct (parse_elements _ _ rest) as [[vs r]| |]; [|rejected|contradiction].
      split; [discriminate|]. intros ? ? [= <- <-].
      specialize (Hl _ _ eq_refl). lia. }
  destruct (c =? LBRACE).
  { destruct (skip_ws rest) as [|c' r'] eqn:E1; [rejected|].
    apply skip_ws_cons_length in E1.
    destruct (c' =? RBRACE).
    - split; [discriminate|]. intros ? ? [= <- <-]. lia.
    - destruct (parse_members_bounded _ _ IH (S (length rest)) rest) as [Hf Hl];
        [lia|lia|].
      destruct (parse_members _ _ rest) as [[ms r]| |]; [|rejected|contradiction].
      split; [discriminate|]. intros ? ? [= <- <-].
      specialize (Hl _ _ eq_refl). lia. }
  assert (Hkw : forall lit v,
    keyword lit v rest <> OutOfFuel /\
    forall v' r, keyword lit v rest = Ok (v', r) -> (length r <= length s)%nat).
  { intros lit v. destruct (keyword_bounded lit v rest) as [Hf Hl].
    split; [exact Hf|]. intros v' r H. specialize (Hl _ _ H). lia. }
  destruct (c =? 110); [apply Hkw|].
  destruct (c =? 116); [apply Hkw|].
  destruct (c =? 102); [apply Hkw|].
  destruct ((c =? MINUS) || is_digit c); [|rejected].
  destruct (parse_number (c :: rest)) as [[lit r]|] eqn:E1; [|rejected].
  apply parse_number_length in E1. simpl in E1.
  split; [discriminate|]. intros ? ? [= <- <-]. lia.
Qed.

(** [JSON_parse] never stops for lack of fuel: its answer is a value or a
    syntax error of the text. *)
Lemma JSON_parse_fuel (text : jsstring) : JSON_parse text <> OutOfFuel.
Proof.
  unfold JSON_parse.
  destruct (parse_value_bounded (S (length text)) text) as [Hf _]; [lia|].
  destruct (parse_value (S (length text)) text) as [[v r]| |];
    [|discriminate|contradiction].
  destruct (skip_ws r); discriminate.
Qed.

(** *** Reading back what [stringify] wrote *)

(** The values that come back unchanged: no number (a literal is not
    checked against the number grammar here, and the component stores none)
    and no key twice in an object. *)
#[warnings="-register-all"]
Inductive plain : json -> Prop :=
| plain_null : plain JNull
| plain_bool b : plain (JBool b)
| plain_str s : plain (JStr s)
| plain_arr items : Forall plain items -> plain (JArr items)
| plain_obj members :
    NoDup members.*1 -> Forall (fun kv => plain kv.2) members ->
    plain (JObj members).

Definition member_text (kv : jsstring * json) : jsstring :=
  let '(k, v) := kv in QuoteJSONString k ++ COLON :: stringify v.

Lemma stringify_obj (members : list (jsstring * json)) :
  stringify (JObj members) =
  LBRACE :: join_commas (map member_text members) ++ [RBRACE].
Proof. reflexivity. Qed.

Definition commas (parts : list jsstring) : jsstring :=
  flat_map (fun q => COMMA :: q) parts.

Lemma commas_length (parts : list jsstring) :
  (length parts <= length (commas parts))%nat.
Proof.
  induction parts as [|p ps IH]; simpl; [lia|].
  rewrite length_app. lia.
Qed.

Lemma commas_elem_length (parts : list jsstring) (p : jsstring) :
  p ∈ parts -> (length p < length (commas parts))%nat.
Proof.
  induction 1 as [p ps|p q ps _ IH]; simpl; rewrite length_app; lia.
Qed.

Lemma join_commas_elem_length (parts : list jsstring) (p : jsstring) :
  p ∈ parts -> (length p <= length (join_commas parts))%nat.
Proof.
  destruct parts as [|q ps]; [intros H; inversion H|].
  intros H. apply elem_of_cons in H as [->|H]; simpl; rewrite length_app.
  - lia.
  - apply commas_elem_length in H. fold (commas ps). lia.
Qed.

(** The first character of a written value opens a value: it is neither
    white space nor a closing bracket. *)
Lemma stringify_head (j : json) :
  plain j ->
  exists c t, stringify j = c :: t /\ is_ws c = false /\
    (c =? RBRACKET) = false.
Proof.
  destruct 1 as [|[]| | |]; simpl; eauto.
Qed.

Section Roundtrip_items.
Variable pv : jsstring -> result (json * jsstring).

Lemma parse_elements_stringify (n : nat) (v : json) (vs : list json)
    (rest : jsstring) :
  (forall v' rest', v' ∈ v :: vs -> pv (stringify v' ++ rest') = Ok (v', rest')) ->
  (length vs < n)%nat ->
  parse_elements pv n
    (stringify v ++ commas (map stringify vs) ++ RBRACKET :: rest)
  = Ok (v :: vs, rest).
Proof.
  revert v vs. induction n as [|n IH]; intros v vs Hpv Hn; [lia|].
  cbn [parse_elements]. rewrite Hpv by left.
  destruct vs as [|w ws]; [reflexivity|].
  cbn [map commas flat_map app skip_ws is_ws].
  change (is_ws COMMA) with false. cbv iota.
  change (COMMA =? COMMA) with true. cbv iota.
  rewrite <- app_assoc. fold (commas (map stringify ws)).
  rewrite IH; [reflexivity| |simpl in Hn; lia].
  intros v' rest' Hv'. apply Hpv. right. exact Hv'.
Qed.

Lemma parse_members_stringify (n : nat) (k : jsstring) (v : json)
    (ms : list (jsstring * json)) (rest : jsstring) :
  (forall kv rest', kv ∈ (k, v) :: ms ->
     pv (stringify kv.2 ++ rest') = Ok (kv.2, rest')) ->
  (length ms < n)%nat ->
  parse_members pv n
    (member_text (k, v) ++ commas (map member_text ms) ++ RBRACE :: rest)
  = Ok ((k, v) :: ms, rest).
Proof.
  revert k v ms. induction n as [|n IH]; intros k v ms Hpv Hn; [lia|].
  cbn [parse_members member_text QuoteJSONString app skip_ws].
  change (is_ws QUOTE) with false. cbv iota.
  change (QUOTE =? QUOTE) with true. cbv iota.
  rewrite <- !app_assoc. cbn [app].
  rewrite parse_string_body_quote_body.
  cbn [skip_ws]. change (is_ws COLON) with false. cbv iota.
  change (COLON =? COLON) with true. cbv iota.
  rewrite (Hpv (k, v)) by left.
  destruct ms as [|[k' v'] ms']; [reflexivity|].
  cbn [map commas flat_map app skip_ws].
  change (is_ws COMMA) with false. cbv iota.
  change (COMMA =? COMMA) with true. cbv iota.
  rewrite <- app_assoc. fold (commas (map member_text ms')).
  rewrite IH; [reflexivity| |simpl in Hn; lia].
  intros kv rest' Hkv. apply Hpv. right. exact Hkv.
Qed.
End Roundtrip_items.

Lemma obj_set_fresh (k : jsstring) (v : json) (ms : list (jsstring * json)) :
  k ∉ ms.*1 -> obj_set k v ms = ms ++ [(k, v)].
Proof.
  induction ms as [|[k' v'] ms IH]; intros Hk; [reflexivity|].
  simpl in *. apply not_elem_of_cons in Hk as [Hne Hk].
  destruct (decide (k = k')); [contradiction|]. rewrite IH by assumption.
  reflexivity.
Qed.

Lemma make_object_NoDup (ms : list (jsstring * json)) :
  NoDup ms.*1 -> make_object ms = JObj ms.
Proof.
  unfold make_object. intros Hnd. f_equal.
  assert (H : forall acc, NoDup (acc ++ ms).*1 ->
    fold_left (fun acc kv => obj_set kv.1 kv.2 acc) ms acc = acc ++ ms).
  { clear Hnd. induction ms as [|[k v] ms IH]; intros acc Hnd; simpl.
    - rewrite app_nil_r. reflexivity.
    - rewrite obj_set_fresh.
      + rewrite IH; rewrite <- app_assoc; [reflexivity|exact Hnd].
      + rewrite fmap_app in Hnd. apply NoDup_app in Hnd as (_ & Hdisj & _).
        intros Hin. apply (Hdisj k Hin). simpl. left. }
  apply (H []). exact Hnd.
Qed.

Lemma parse_value_stringify (fuel : nat) (j : json) (rest : jsstring) :
  plain j -> (length (stringify j) < fuel)%nat ->
  parse_value fuel (stringify j ++ rest) = Ok (j, rest).
Proof.
  revert j rest. induction fuel as [|fuel IH]; intros j rest Hj Hlen; [lia|].
  destruct Hj as [|b|s|items Hitems|members Hnd Hmembers].
  - reflexivity.
  - destruct b; reflexivity.
  - cbn [stringify QuoteJSONString parse_value app skip_ws].
    change (is_ws QUOTE) with false. cbv iota.
    change (QUOTE =? QUOTE) with true. cbv iota.
    rewrite <- app_assoc. cbn [app].
    rewrite parse_string_body_quote_body. reflexivity.
  - destruct items as [|v vs]; [reflexivity|].
    cbn [stringify parse_value app skip_ws map join_commas] in Hlen |- *.
    change (is_ws LBRACKET) with false. cbv iota.
    change (LBRACKET =? QUOTE) with false.
    change (LBRACKET =? LBRACKET) with true. cbv iota.
    fold (commas (map stringify vs)) in Hlen |- *.
    rewrite <- !app_assoc. cbn [app].
    destruct (stringify_head v) as (c & t & Hhead & Hws & Hclose).
    { apply Forall_cons in Hitems as [Hv _]. exact Hv. }
    assert (Hsk : forall x, skip_ws (stringify v ++ x) = c :: (t ++ x))
      by (intros x; rewrite Hhead; simpl; rewrite Hws; reflexivity).
    rewrite Hsk, Hclose.
    rewrite parse_elements_stringify; [reflexivity| |].
    + intros v' rest' Hv'. apply IH.
      * rewrite Forall_forall in Hitems. apply Hitems. exact Hv'.
      * assert (Hin : stringify v' ∈ map stringify (v :: vs))
          by (apply list_elem_of_In, in_map, list_elem_of_In; exact Hv').
        apply join_commas_elem_length in Hin.
        cbn [map join_commas] in Hin. fold (commas (map stringify vs)) in Hin.
        simpl in Hlen. repeat rewrite length_app in Hlen.
        repeat rewrite length_app in Hin. simpl in Hlen. lia.
    + pose proof (commas_length (map stringify vs)) as Hc.
      rewrite length_map in Hc. rewrite !length_app. simpl. lia.
  - destruct members as [|[k v] ms]; [reflexivity|].
    rewrite stringify_obj in Hlen |- *.
    cbn [parse_value app skip_ws map join_commas] in Hlen |- *.
    change (is_ws LBRACE) with false. cbv iota.
    change (LBRACE =? QUOTE) with false.
    change (LBRACE =? LBRACKET) with false.
    change (LBRACE =? LBRACE) with true. cbv iota.
    fold (commas (map member_text ms)) in Hlen |- *.
    rewrite <- !app_assoc. cbn [app].
    assert (Hsk : forall x, skip_ws (member_text (k, v) ++ x) =
      QUOTE :: ((quote_body k ++ [QUOTE]) ++ COLON :: stringify v) ++ x)
      by reflexivity.
    rewrite Hsk. change (QUOTE =? RBRACE) with false. cbv iota.
    rewrite parse_members_stringify.
    + rewrite make_object_NoDup by exact Hnd. reflexivity.
    + intros kv rest' Hkv. apply IH.
      * rewrite Forall_forall in Hmembers. apply Hmembers. exact Hkv.
      * assert (Hin : member_text kv ∈ map member_text ((k, v) :: ms))
          by (apply list_elem_of_In, in_map, list_elem_of_In; exact Hkv).
        apply join_commas_elem_length in Hin.
        cbn [map join_commas] in Hin. fold (commas (map member_text ms)) in Hin.
        assert (length (stringify kv.2) <= length (member_text kv))%nat.
        { destruct kv as [k' v']. unfold member_text. simpl.
          rewrite !length_app. simpl. lia. }
        assert (length (member_text (k, v)) =
                S (length (quote_body k) + 1 + S (length (stringify v))))%nat
          by (simpl; rewrite !length_app; reflexivity).
        simpl in Hlen. repeat rewrite length_app in Hlen.
        repeat rewrite length_app in Hin. simpl in Hlen. lia.
    + pose proof (commas_length (map member_text ms)) as Hc.
      rewrite length_map in Hc. rewrite !length_app. simpl. lia.
Qed.

(** [JSON.parse(JSON.stringify(j))] is [j]. *)
Lemma JSON_parse_stringify (j : json) :
  plain j -> JSON_parse (stringify j) = Ok j.
Proof.
  intros Hj. unfold JSON_parse.
  rewrite <- (app_nil_r (stringify j)) at 2.
  rewrite parse_value_stringify; [reflexivity|exact Hj|lia].
Qed.

(** ** The data of the component *)

(** [role: 'user' | 'bot'] *)
Inductive Role : Type := user | bot.

Module Message.
(** [type Message]; [time] and [sources] are optional properties. *)
Record t : Type := mk {
  id : jsstring;
  role : Role;
  text : jsstring;
  time : option jsstring;
  sources : option (list jsstring);
}.

(** [{ ...m, text: v }] *)
Definition with_text (m : t) (v : jsstring) : t :=
  mk (id m) (role m) v (time m) (sources m).

(** [{ ...m, text: v, sources: srcs }] *)
Definition with_text_sources (m : t) (v : jsstring) (srcs : list jsstring) : t :=
  mk (id m) (role m) v (time m) (Some srcs).
End Message.

Module ChatSession.
(** [type ChatSession] *)
Record t : Type := mk {
  id : jsstring;
  createdAt : jsstring;
  messages : list Message.t;
}.

(** [{ ...s, messages: ms }] *)
Definition with_messages (s : t) (ms : list Message.t) : t :=
  mk (id s) (createdAt s) ms.
End ChatSession.

(** *** The JavaScript objects behind the records *)

(** A record is one object: its properties in the order in which the
    component creates them ([id, role, text, time] in the literals of
    [sendMessage], [sources] added last by the spread of the final update),
    an absent optional property left out. *)
Definition role_name (r : Role) : jsstring :=
  match r with
  | user => str "user"
  | bot => str "bot"
  end.

Definition optional {A : Type} (key : string) (f : A -> json) (o : option A)
  : list (jsstring * json) :=
  match o with
  | Some a => [(str key, f a)]
  | None => []
  end.

Definition json_of_message (m : Message.t) : json :=
  JObj ([(str "id", JStr (Message.id m));
         (str "role", JStr (role_name (Message.role m)));
         (str "text", JStr (Message.text m))]
        ++ optional "time" JStr (Message.time m)
        ++ optional "sources" (fun l => JArr (JStr <$> l)) (Message.sources m)).

Definition json_of_session (s : ChatSession.t) : json :=
  JObj [(str "id", JStr (ChatSession.id s));
        (str "createdAt", JStr (ChatSession.createdAt s));
        (str "messages", JArr (json_of_message <$> ChatSession.messages s))].

Definition json_of_sessions (ss : list ChatSession.t) : json :=
  JArr (json_of_session <$> ss).

(** The way back: the record a parsed value is the object of, if any.
    [JSON.parse(raw) as ChatSession[]] checks nothing; a value that is the
    object of no record is outside the declared type of the state. *)
Definition string_of_json (j : json) : option jsstring :=
  match j with
  | JStr s => Some s
  | _ => None
  end.

Definition strings_of_json (j : json) : option (list jsstring) :=
  match j with
  | JArr items => mapM string_of_json items
  | _ => None
  end.

Definition role_of_name (s : jsstring) : option Role :=
  if decide (s = str "user") then Some user
  else if decide (s = str "bot") then Some bot
  else None.

Definition optionals_of_json (more : list (jsstring * json))
  : option (option jsstring * option (list jsstring)) :=
  match more with
  | [] => Some (None, None)
  | [(k, v)] =>
      if decide (k = str "time") then
        tm ← string_of_json v; Some (Some tm, None)
      else if decide (k = str "sources") then
        l ← strings_of_json v; Some (None, Some l)
      else None
  | [(k, v); (k', v')] =>
      if decide (k = str "time" /\ k' = str "sources") then
        tm ← string_of_json v; l ← strings_of_json v'; Some (Some tm, Some l)
      else None
  | _ => None
  end.

Definition message_of_json (j : json) : option Message.t :=
  match j with
  | JObj ((k1, JStr i) :: (k2, JStr r) :: (k3, JStr t) :: more) =>
      if decide (k1 = str "id" /\ k2 = str "role" /\ k3 = str "text") then
        ro ← role_of_name r;
        '(tm, srcs) ← optionals_of_json more;
        Some (Message.mk i ro t tm srcs)
      else None
  | _ => None
  end.

Definition session_of_json (j : json) : option ChatSession.t :=
  match j with
  | JObj [(k1, JStr i); (k2, JStr c); (k3, JArr ms)] =>
      if decide (k1 = str "id" /\ k2 = str "createdAt" /\ k3 = str "messages")
      then msgs ← mapM message_of_json ms; Some (ChatSession.mk i c msgs)
      else None
  | _ => None
  end.

Definition sessions_of_json (j : json) : option (list ChatSession.t) :=
  match j with
  | JArr items => mapM session_of_json items
  | _ => None
  end.

Lemma strings_of_json_inv (l : list jsstring) :
  strings_of_json (JArr (JStr <$> l)) = Some l.
Proof. simpl. apply mapM_fmap_Some. intros s. reflexivity. Qed.

Lemma message_of_json_inv (m : Message.t) :
  message_of_json (json_of_message m) = Some m.
Proof.
  destruct m as [i r t tm srcs]. unfold json_of_message. cbn [Message.id
    Message.role Message.text Message.time Message.sources app message_of_json].
  rewrite decide_True by done.
  assert (Hr : role_of_name (role_name r) = Some r) by (destruct r; reflexivity).
  rewrite Hr. cbn [mbind option_bind].
  destruct tm as [tm|], srcs as [srcs|]; cbn [optional app optionals_of_json].
  - rewrite decide_True by done. cbn [string_of_json mbind option_bind].
    rewrite strings_of_json_inv. reflexivity.
  - rewrite decide_True by done. reflexivity.
  - rewrite decide_False by (intros H; vm_compute in H; discriminate).
    rewrite decide_True by done.
    rewrite strings_of_json_inv. reflexivity.
  - reflexivity.
Qed.

Lemma session_of_json_inv (s : ChatSession.t) :
  session_of_json (json_of_session s) = Some s.
Proof.
  destruct s as [i c ms]. unfold json_of_session, session_of_json.
  cbn [ChatSession.id ChatSession.createdAt ChatSession.messages].
  rewrite decide_True by done.
  rewrite (mapM_fmap_Some message_of_json json_of_message) by apply message_of_json_inv.
  reflexivity.
Qed.

Lemma sessions_of_json_inv (ss : list ChatSession.t) :
  sessions_of_json (json_of_sessions ss) = Some ss.
Proof. simpl. apply mapM_fmap_Some. apply session_of_json_inv. Qed.

(** The typed view loses nothing: a value with a view is the object of
    that view. *)
Lemma string_of_json_exact (j : json) (s : jsstring) :
  string_of_json j = Some s -> j = JStr s.
Proof. destruct j; intros [= <-]. reflexivity. Qed.

Lemma strings_of_json_exact (j : json) (l : list jsstring) :
  strings_of_json j = Some l -> j = JArr (JStr <$> l).
Proof.
  destruct j as [| | | |items|]; try discriminate. simpl. intros H.
  apply mapM_Some in H.
  cut (items = JStr <$> l); [intros ->; reflexivity|].
  induction H as [|x y xs ys Hxy _ IH]; [reflexivity|].
  rewrite fmap_cons, IH. f_equal. apply string_of_json_exact, Hxy.
Qed.

Lemma role_of_name_exact (n : jsstring) (r : Role) :
  role_of_name n = Some r -> n = role_name r.
Proof.
  unfold role_of_name. repeat case_decide; intros [= <-]; assumption.
Qed.

Lemma optionals_of_json_exact more tm srcs :
  optionals_of_json more = Some (tm, srcs) ->
  more = optional "time" JStr tm
         ++ optional "sources" (fun l => JArr (JStr <$> l)) srcs.
Proof.
  unfold optionals_of_json. intros H.
  repeat (case_match; simplify_eq; try discriminate).
  all: repeat match goal with
       | H : _ ≫= _ = Some _ |- _ => apply bind_Some in H as (? & ? & ?)
       | H : string_of_json _ = Some _ |- _ => apply string_of_json_exact in H
       | H : strings_of_json _ = Some _ |- _ => apply strings_of_json_exact in H
       | H : _ /\ _ |- _ => destruct H
       end; simplify_eq; reflexivity.
Qed.

Lemma message_of_json_exact (j : json) (m : Message.t) :
  message_of_json j = Some m -> j = json_of_message m.
Proof.
  unfold message_of_json. intros H.
  repeat (case_match; simplify_eq; try discriminate).
  apply bind_Some in H as (ro & Hro & H).
  apply bind_Some in H as ([tm srcs] & Hopt & H). simplify_eq.
  apply role_of_name_exact in Hro. apply optionals_of_json_exact in Hopt.
  destruct_and!. subst. reflexivity.
Qed.

Lemma session_of_json_exact (j : json) (s : ChatSession.t) :
  session_of_json j = Some s -> j = json_of_session s.
Proof.
  unfold session_of_json. intros H.
  repeat (case_match; simplify_eq; try discriminate).
  apply bind_Some in H as (msgs & Hm & H). simplify_eq.
  destruct_and!. subst. unfold json_of_session. simpl.
  apply mapM_Some in Hm.
  match goal with
  | |- context [JArr ?l] => cut (l = json_of_message <$> msgs);
      [intros ->; reflexivity|]
  end.
  induction Hm as [|x y xs ys Hxy _ IH]; [reflexivity|].
  rewrite fmap_cons, IH. f_equal. apply message_of_json_exact, Hxy.
Qed.

(** A parsed value has a typed view exactly when it is the array of
    objects of some collection. *)
Lemma sessions_of_json_exact (j : json) (ss : list ChatSession.t) :
  sessions_of_json j = Some ss <-> j = json_of_sessions ss.
Proof.
  split; [|intros ->; apply sessions_of_json_inv].
  destruct j as [| | | |items|]; try discriminate. simpl. intros H.
  apply mapM_Some in H. unfold json_of_sessions.
  cut (items = json_of_session <$> ss); [intros ->; reflexivity|].
  induction H as [|x y xs ys Hxy _ IH]; [reflexivity|].
  rewrite fmap_cons, IH. f_equal. apply session_of_json_exact, Hxy.
Qed.

Lemma plain_strings (l : list jsstring) : plain (JArr (JStr <$> l)).
Proof.
  constructor. induction l as [|s l IH]; constructor; [constructor|exact IH].
Qed.

Lemma plain_message (m : Message.t) : plain (json_of_message m).
Proof.
  destruct m as [i r t [tm|] [srcs|]]; constructor;
    cbn [Message.id Message.role Message.text Message.time Message.sources
         optional app fmap list_fmap fst];
    first [ apply (bool_decide_unpack _); vm_compute; reflexivity
          | repeat first [apply plain_strings | constructor; cbn [snd]] ].
Qed.

Lemma plain_session (s : ChatSession.t) : plain (json_of_session s).
Proof.
  destruct s as [i c ms]. constructor.
  - apply (bool_decide_unpack _). vm_compute. reflexivity.
  - repeat (constructor; cbn [snd ChatSession.messages]).
    induction ms as [|m ms IH]; constructor; [apply plain_message|exact IH].
Qed.

Lemma plain_sessions (ss : list ChatSession.t) : plain (json_of_sessions ss).
Proof.
  constructor. induction ss as [|s ss IH]; constructor;
    [apply plain_session|exact IH].
Qed.

(** [JSON.parse(JSON.stringify(sessions))] is the array of the same
    records. *)
Lemma JSON_parse_stringify_sessions (ss : list ChatSession.t) :
  JSON_parse (stringify (json_of_sessions ss)) = Ok (json_of_sessions ss).
Proof. apply JSON_parse_stringify, plain_sessions. Qed.

(** ** Platform functions used by the handlers *)

(** WhiteSpace and LineTerminator of ECMA-262, as [String.prototype.trim]
    strips them. *)
Definition is_js_space (c : N) : bool :=
  ((9 <=? c) && (c <=? 13)) || (c =? 32) || (c =? 160) || (c =? 5760)
  || ((8192 <=? c) && (c <=? 8202)) || (c =? 8232) || (c =? 8233)
  || (c =? 8239) || (c =? 8287) || (c =? 12288) || (c =? 65279).

Fixpoint trim_start (s : jsstring) : jsstring :=
  match s with
  | c :: rest => if is_js_space c then trim_start rest else s
  | [] => []
  end.

(** [s.trim()] *)
Definition trim (s : jsstring) : jsstring :=
  rev (trim_start (rev (trim_start s))).

Fixpoint units_of_uint (d : Decimal.uint) : jsstring :=
  match d with
  | Decimal.Nil => []
  | Decimal.D0 d => 48 :: units_of_uint d
  | Decimal.D1 d => 49 :: units_of_uint d
  | Decimal.D2 d => 50 :: units_of_uint d
  | Decimal.D3 d => 51 :: units_of_uint d
  | Decimal.D4 d => 52 :: units_of_uint d
  | Decimal.D5 d => 53 :: units_of_uint d
  | Decimal.D6 d => 54 :: units_of_uint d
  | Decimal.D7 d => 55 :: units_of_uint d
  | Decimal.D8 d => 56 :: units_of_uint d
  | Decimal.D9 d => 57 :: units_of_uint d
  end.

(** [n.toString()] of a non-negative integer below 2^53 (a clock reading in
    milliseconds, an HTTP status): its decimal digits. *)
Definition toString (n : N) : jsstring := units_of_uint (N.to_uint n).

(** A string as a condition: the empty string is falsy. *)
Definition truthy (s : jsstring) : bool :=
  match s with
  | [] => false
  | _ :: _ => true
  end.

(** ** The state of the component *)

(** The four [useState] cells of [Home]. *)
Record State : Type := mkState {
  sessions : list ChatSession.t;
  currentSessionId : option jsstring;
  input : jsstring;
  loading : bool;
}.

(** [useState([])], [useState(null)], [useState('')], [useState(false)] *)
Definition initial : State := mkState [] None [] false.

Definition STORAGE_SESSIONS_KEY : jsstring := str "finchat_sessions_v1".

(** [sessions.find(s => s.id === currentSessionId)] *)
Definition currentSession (st : State) : option ChatSession.t :=
  find (fun s => bool_decide (Some (ChatSession.id s) = currentSessionId st))
       (sessions st).

(** What a handler does, in the order in which it does it.  A state setter
    takes an updater ([setSessions(prev => ...)]); a setter called with a
    value is the constant updater. *)
Inductive Action : Type :=
| SetSessions (f : list ChatSession.t -> list ChatSession.t)
| SetCurrentSessionId (v : option jsstring)
| SetInput (v : jsstring)
| SetLoading (v : bool)
| RemoveItem (key : jsstring)          (* localStorage.removeItem(key) *)
| Fetch (url body : jsstring)          (* await fetch(url, POST body) *)
| ReadBody                             (* await res.json() *)
| Sleep (ms : N).                      (* await a timer of ms *)

(** *** The handlers *)

(** Each handler is a function of the values its closure holds: the state
    of the render that created it, and what the platform answers (the
    clock, the network). *)

(** [startNewSession]; [now] is [Date.now()], [iso] is [nowIso()]. *)
Definition startNewSession (now : N) (iso : jsstring) : list Action :=
  let newSession := ChatSession.mk (toString now) iso [] in
  [SetSessions (fun prevSessions => newSession :: prevSessions);
   SetCurrentSessionId (Some (ChatSession.id newSession))].

(** [prevSessions.map(s => s.id === currentSessionId
      ? { ...s, messages: f(s.messages) } : s)] *)
Definition in_session (cur : option jsstring)
    (f : list Message.t -> list Message.t)
    (prevSessions : list ChatSession.t) : list ChatSession.t :=
  (fun s => if decide (Some (ChatSession.id s) = cur)
            then ChatSession.with_messages s (f (ChatSession.messages s))
            else s) <$> prevSessions.

(** [addMessage(msg)] *)
Definition addMessage (st : State) (msg : Message.t) : list Action :=
  [SetSessions (in_session (currentSessionId st) (fun ms => ms ++ [msg]))].

(** [sessions[0]?.id || null] *)
Definition first_id_or_null (ss : list ChatSession.t) : option jsstring :=
  match ss with
  | s :: _ => if truthy (ChatSession.id s) then Some (ChatSession.id s) else None
  | [] => None
  end.

(** [deleteSession(sessionId)]; [sessions] in its last line is the array of
    the render that created the handler. *)
Definition deleteSession (st : State) (sessionId : jsstring) : list Action :=
  SetSessions (filter (fun s => ChatSession.id s <> sessionId))
  :: (if decide (currentSessionId st = Some sessionId)
      then [SetCurrentSessionId (first_id_or_null (sessions st))]
      else []).

(** [clearAllSessions] *)
Definition clearAllSessions : list Action :=
  [SetSessions (fun _ => []);
   SetCurrentSessionId None;
   RemoveItem STORAGE_SESSIONS_KEY].

(** *** [sendMessage] *)

(** A value caught by [catch (err: unknown)]. *)
Inductive Thrown : Type :=
| ErrorObject (message : jsstring)     (* err instanceof Error *)
| OtherValue.

(** The body of a successful answer, as [res.json()] resolves it:
    [data.answer] and [data.sources] may be absent. *)
Record AskData : Type := mkAskData {
  answer : option jsstring;
  data_sources : option (list jsstring);
}.

(** What the network does with the one request. *)
Inductive FetchOutcome : Type :=
| Rejected (err : Thrown)                         (* fetch rejects *)
| Responded (status : N) (body : Thrown + AskData).
                             (* res.status, and res.json(): rejects or resolves *)

(** [res.ok]: the status is in the range 200-299. *)
Definition ok (status : N) : bool := (200 <=? status) && (status <=? 299).

(** What the platform answers during one call of [sendMessage]. *)
Record SendEnv : Type := mkSendEnv {
  NEXT_PUBLIC_BACKEND_URL : option jsstring;
  user_now : N;              (* Date.now() for userMsg.id *)
  user_iso : jsstring;       (* nowIso() for userMsg.time *)
  bot_now : N;               (* Date.now() for botMsg.id *)
  bot_iso : jsstring;        (* nowIso() for botMsg.time *)
  outcome : FetchOutcome;
}.

(** [process.env.NEXT_PUBLIC_BACKEND_URL || 'http://127.0.0.1:8000'] *)
Definition backend (env : SendEnv) : jsstring :=
  match NEXT_PUBLIC_BACKEND_URL env with
  | Some url => if truthy url then url else str "http://127.0.0.1:8000"
  | None => str "http://127.0.0.1:8000"
  end.

(** [s.messages.map(m => m.id === botId ? g(m) : m)] *)
Definition patch (botId : jsstring) (g : Message.t -> Message.t)
    (ms : list Message.t) : list Message.t :=
  (fun m => if decide (Message.id m = botId) then g m else m) <$> ms.

(** The typing animation: [displayed] grows by [answer[i]] at each turn of
    the loop, one [setSessions] and one timer of 15 per turn. *)
Fixpoint typing (cur : option jsstring) (botId : jsstring)
    (displayed remaining : jsstring) : list Action :=
  match remaining with
  | [] => []
  | c :: rest =>
      let displayed' := displayed ++ [c] in
      SetSessions
        (in_session cur (patch botId (fun m => Message.with_text m displayed')))
      :: Sleep 15
      :: typing cur botId displayed' rest
  end.

(** The warning sign U+26A0, the variation selector U+FE0F, and the text
    that follows them in the template literal of the [catch] block. *)
Definition error_indicator : jsstring := 9888 :: 65039 :: str " Error: ".

(** The [catch] block. *)
Definition on_error (cur : option jsstring) (botId : jsstring) (err : Thrown)
  : list Action :=
  let message :=
    match err with
    | ErrorObject m => m
    | OtherValue => str "Unknown error"
    end in
  [SetSessions
     (in_session cur
        (patch botId
           (fun m => Message.with_text_sources m (error_indicator ++ message) [])))].

(** The [try] block after the request was sent. *)
Definition on_outcome (cur : option jsstring) (botId : jsstring)
    (o : FetchOutcome) : list Action :=
  match o with
  | Rejected err => on_error cur botId err
  | Responded status body =>
      if ok status then
        ReadBody ::
        match body with
        | inr data =>
            let answer := default [] (answer data) in
            let sources := default [] (data_sources data) in
            typing cur botId [] answer
            ++ [SetSessions
                  (in_session cur
                     (patch botId
                        (fun m => Message.with_text_sources m answer sources)))]
        | inl err => on_error cur botId err
        end
      else on_error cur botId (ErrorObject (str "Server error: " ++ toString status))
  end.

(** The body of the request: [JSON.stringify({ question: text })]. *)
Definition ask_body (text : jsstring) : jsstring :=
  stringify (JObj [(str "question", JStr text)]).

Definition sendMessage (st : State) (env : SendEnv) : list Action :=
  let text := trim (input st) in
  if negb (truthy text) || negb (from_option truthy false (currentSessionId st))
  then []
  else
    let userMsg :=
      Message.mk (toString (user_now env)) user text (Some (user_iso env)) None in
    let botMsg :=
      Message.mk (toString (bot_now env + 1)) bot [] (Some (bot_iso env)) None in
    addMessage st userMsg
    ++ [SetInput []; SetLoading true]
    ++ addMessage st botMsg
    ++ [Fetch (backend env ++ str "/ask") (ask_body text)]
    ++ on_outcome (currentSessionId st) (Message.id botMsg) (outcome env)
    ++ [SetLoading false].

(** ** Effects and the commit cycle *)

(** The component and the storage of the browser. *)
Record World : Type := mkWorld {
  state : State;
  localStorage : gmap jsstring jsstring;
}.

Definition apply_action (w : World) (a : Action) : World :=
  let st := state w in
  match a with
  | SetSessions f =>
      mkWorld (mkState (f (sessions st)) (currentSessionId st) (input st) (loading st))
              (localStorage w)
  | SetCurrentSessionId v =>
      mkWorld (mkState (sessions st) v (input st) (loading st)) (localStorage w)
  | SetInput v =>
      mkWorld (mkState (sessions st) (currentSessionId st) v (loading st))
              (localStorage w)
  | SetLoading v =>
      mkWorld (mkState (sessions st) (currentSessionId st) (input st) v)
              (localStorage w)
  | RemoveItem key => mkWorld st (delete key (localStorage w))
  | Fetch _ _ | ReadBody | Sleep _ => w
  end.

(** The effect with dependencies [[sessions]]:
    [localStorage.setItem(STORAGE_SESSIONS_KEY, JSON.stringify(sessions))]. *)
Definition persist_effect (w : World) : World :=
  mkWorld (state w)
    (<[STORAGE_SESSIONS_KEY := stringify (json_of_sessions (sessions (state w)))]>
       (localStorage w)).

Definition sets_sessions (a : Action) : bool :=
  match a with
  | SetSessions _ => true
  | _ => false
  end.

Definition suspends (a : Action) : bool :=
  match a with
  | Fetch _ _ | ReadBody | Sleep _ => true
  | _ => false
  end.

(** One commit: the updates issued since the last one are applied in the
    order of their calls, the component renders, and the persist effect
    runs when [sessions] is a new array.  Every updater of the component
    builds a new array (a literal, [map], [filter], a spread), so this is
    whenever [setSessions] was called. *)
Definition commit (block : list Action) (w : World) : World :=
  let w' := foldl apply_action w block in
  if existsb sets_sessions block then persist_effect w' else w'.

(** An async handler runs up to its next [await]; React commits while it
    is suspended.  [blocks script] are the runs between the awaits. *)
Fixpoint blocks (script : list Action) : list (list Action) :=
  match script with
  | [] => [[]]
  | a :: rest =>
      if suspends a then [] :: blocks rest
      else
        match blocks rest with
        | b :: bs => (a :: b) :: bs
        | [] => [[a]]
        end
  end.

(** The worlds after each commit of a list of blocks run without
    interruption.  A block without any update queues nothing: React does
    not render and there is no commit. *)
Fixpoint commits (bs : list (list Action)) (w : World) : list World :=
  match bs with
  | [] => []
  | [] :: bs' => commits bs' w
  | (_ :: _) as b :: bs' => let w' := commit b w in w' :: commits bs' w'
  end.

(** *** Startup *)

(** The declared type of the state, read on a parsed value: [type Message]
    and [type ChatSession] ask for properties by name, whatever their order
    and whatever else the object holds. *)

(** [o.key]: the value of the property, when the object has it. *)
Definition get (key : string) (members : list (jsstring * json)) : option json :=
  snd <$> List.find (fun kv => bool_decide (kv.1 = str key)) members.

(** An optional property: absent, or of the declared type. *)
Definition read_optional {A : Type} (f : json -> option A) (o : option json)
  : option (option A) :=
  match o with
  | None => Some None
  | Some v => Some <$> f v
  end.

Definition read_message (j : json) : option Message.t :=
  match j with
  | JObj members =>
      i ← (get "id" members ≫= string_of_json);
      r ← ((get "role" members ≫= string_of_json) ≫= role_of_name);
      t ← (get "text" members ≫= string_of_json);
      tm ← read_optional string_of_json (get "time" members);
      srcs ← read_optional strings_of_json (get "sources" members);
      Some (Message.mk i r t tm srcs)
  | _ => None
  end.

Definition read_messages (j : json) : option (list Message.t) :=
  match j with
  | JArr items => mapM read_message items
  | _ => None
  end.

Definition read_session (j : json) : option ChatSession.t :=
  match j with
  | JObj members =>
      i ← (get "id" members ≫= string_of_json);
      c ← (get "createdAt" members ≫= string_of_json);
      ms ← (get "messages" members ≫= read_messages);
      Some (ChatSession.mk i c ms)
  | _ => None
  end.

(** The collection a parsed value is, when it is a [ChatSession[]]. *)
Definition read_sessions (j : json) : option (list ChatSession.t) :=
  match j with
  | JArr items => mapM read_session items
  | _ => None
  end.

(** An error the platform throws. *)
Inductive Exception : Type :=
| SyntaxErrorThrown      (* JSON.parse on a text that is not JSON *)
| TypeErrorThrown.       (* a property read on null *)

(** What the load effect does with [localStorage.getItem(key)].  Whenever
    [JSON.parse] returned, [setSessions(loaded)] was called with the value
    it returned, whatever this value is. *)
Inductive Load : Type :=
| Updates (us : list Action)
    (* the effect returned, having queued [us] *)
| Throws (e : Exception)
    (* the effect threw; nothing catches it *)
| UpdatesOf (j : json) (us : list Action)
    (* the effect returned, having installed [j], a session collection
       whose objects are laid out otherwise than those the component
       builds; [us] are its updates as the records describe them *)
| Untyped (j : json).
    (* [setSessions(j)] was called with a value that is no session
       collection; what the effect does next is not described *)

(** [setSessions(loaded); if (loaded.length > 0)
    setCurrentSessionId(loaded[0].id)] on a parsed value that is not laid
    out as the component writes it: [null.length] and [loaded[0].id] on a
    first element [null] throw. *)
Definition load_other (j : json) : Load :=
  match j with
  | JNull => Throws TypeErrorThrown
  | JArr (JNull :: _) => Throws TypeErrorThrown
  | _ =>
      match read_sessions j with
      | Some loaded =>
          UpdatesOf j
            (SetSessions (fun _ => loaded)
             :: match loaded with
                | s :: _ => [SetCurrentSessionId (Some (ChatSession.id s))]
                | [] => []
                end)
      | None => Untyped j
      end
  end.

(** The effect with dependencies [[]].  A value laid out as the component
    writes it is told apart first: it is the one for which the records say
    everything, the stored text included.  ([OutOfFuel] does not occur:
    [JSON_parse_fuel].) *)
Definition load_effect (raw : option jsstring) : Load :=
  match raw with
  | Some raw =>
      if truthy raw then
        match JSON_parse raw with
        | Ok j =>
            match sessions_of_json j with
            | Some loaded =>
                Updates
                  (SetSessions (fun _ => loaded)
                   :: match loaded with
                      | s :: _ => [SetCurrentSessionId (Some (ChatSession.id s))]
                      | [] => []
                      end)
            | None => load_other j
            end
        | SyntaxError | OutOfFuel => Throws SyntaxErrorThrown
        end
      else Updates []
  | None => Updates []
  end.

Inductive Mount : Type :=
| Mounted (ws : list World)
    (* the worlds after each commit of startup *)
| MountedOf (j : json) (st : State)
    (* the component holds [j], a session collection laid out otherwise
       than the component writes it; [st] is its state after the second
       commit, as the records describe it *)
| Crashed
    (* an error escaped from an effect *)
| OutsideType (j : json).
    (* [setSessions(j)] was called with a value that is no session
       collection *)

(** The first render shows [initial].  Both effects then run in the order
    of their declaration: the load effect reads the storage and queues its
    updates, the persist effect writes the (empty) [sessions] of this
    render.  The queued updates make a second commit. *)
Definition mount (storage : gmap jsstring jsstring) : Mount :=
  match load_effect (storage !! STORAGE_SESSIONS_KEY) with
  | Updates us =>
      let w1 := persist_effect (mkWorld initial storage) in
      Mounted (w1 :: match us with
                     | [] => []
                     | _ :: _ => [commit us w1]
                     end)
  | UpdatesOf j us =>
      MountedOf j (state (foldl apply_action (mkWorld initial storage) us))
  | Throws _ => Crashed
  | Untyped j => OutsideType j
  end.

(** The state the page shows once startup is over, when the records
    describe it. *)
Definition shows (m : Mount) : option State :=
  match m with
  | Mounted ws => state <$> last ws
  | MountedOf _ st => Some st
  | Crashed | OutsideType _ => None
  end.

(** *** Events *)

(** What the user can do on the page. *)
Inductive Event : Type :=
| NewChat (now : N) (iso : jsstring)      (* + New Chat *)
| ClearAll                                (* Clear All *)
| Select (sessionId : jsstring)           (* click on a session *)
| Delete (sessionId : jsstring)           (* the cross of a session *)
| Edit (value : jsstring)                 (* onChange of the textarea *)
| Send (env : SendEnv).                   (* Send, or Enter without Shift *)

Definition handler (e : Event) (st : State) : list Action :=
  match e with
  | NewChat now iso => startNewSession now iso
  | ClearAll => clearAllSessions
  | Select sessionId => [SetCurrentSessionId (Some sessionId)]
  | Delete sessionId => deleteSession st sessionId
  | Edit value => [SetInput value]
  | Send env => sendMessage st env
  end.

(** The controls that exist in the render of [st]: a session is selected
    or deleted from its row in the sidebar; the textarea and the button are
    disabled while [loading]. *)
Definition enabled (e : Event) (st : State) : Prop :=
  match e with
  | Select sessionId | Delete sessionId =>
      sessionId ∈ ChatSession.id <$> sessions st
  | Edit _ | Send _ => loading st = false
  | NewChat _ _ | ClearAll => True
  end.

(** The page: the world, and the async handlers that are suspended at an
    [await], each with the blocks it has still to run. *)
Record Page : Type := mkPage {
  world : World;
  tasks : list (list (list Action));
}.

Definition suspend (bs : list (list Action)) (ts : list (list (list Action)))
  : list (list (list Action)) :=
  match bs with
  | [] => ts
  | _ :: _ => ts ++ [bs]
  end.

Inductive step : Page -> Page -> Prop :=
| step_event (e : Event) (p : Page) (b : list Action) (bs : list (list Action)) :
    enabled e (state (world p)) ->
    blocks (handler e (state (world p))) = b :: bs ->
    step p (mkPage (commit b (world p)) (suspend bs (tasks p)))
| step_resume (i : nat) (p : Page) (b : list Action) (bs : list (list Action)) :
    tasks p !! i = Some (b :: bs) ->
    step p (mkPage (commit b (world p)) (suspend bs (delete i (tasks p)))).

(** The pages a user can bring about. *)
Inductive reachable : Page -> Prop :=
| reachable_mount storage ws w :
    mount storage = Mounted ws -> last ws = Some w ->
    reachable (mkPage w [])
| reachable_step p p' : reachable p -> step p p' -> reachable p'.

(** * Properties *)

(** ** Decimal texts *)

Lemma units_of_uint_inj (d d' : Decimal.uint) :
  units_of_uint d = units_of_uint d' -> d = d'.
Proof.
  revert d'. induction d; intros d' H; destruct d'; simpl in H;
    try discriminate; try reflexivity;
    injection H as H; f_equal; apply IHd; exact H.
Qed.

(** Two clock readings with the same text are the same reading. *)
Lemma toString_inj (n n' : N) : toString n = toString n' -> n = n'.
Proof.
  unfold toString. intros H.
  apply DecimalN.Unsigned.to_uint_inj, units_of_uint_inj, H.
Qed.

Example toString_clock : toString 1730484000123 = str "1730484000123".
Proof. vm_compute. reflexivity. Qed.

Example toString_zero : toString 0 = str "0".
Proof. reflexivity. Qed.

Example trim_spaces : trim (str "  a b " ++ [LF]) = str "a b".
Proof. reflexivity. Qed.

Example stringify_empty : stringify (json_of_sessions []) = str "[]".
Proof. reflexivity. Qed.

(** ** The session store *)

Definition ids (ss : list ChatSession.t) : list jsstring := ChatSession.id <$> ss.

(** The stored entry is the text of the current collection. *)
Definition persisted (w : World) : Prop :=
  localStorage w !! STORAGE_SESSIONS_KEY
  = Some (stringify (json_of_sessions (sessions (state w)))).

Lemma commit_sessions (b : list Action) (w : World) :
  state (commit b w) = state (foldl apply_action w b).
Proof. unfold commit. destruct (existsb sets_sessions b); reflexivity. Qed.

(** C1: after the commit that [clearAllSessions] triggers, the collection
    is empty and no session is active, and the storage key holds an entry
    again: [removeItem] ran first, the persist effect then wrote the text of
    the empty collection. *)
Theorem clearAll_entry_rewritten (w : World) :
  blocks clearAllSessions = [clearAllSessions] /\
  sessions (state (commit clearAllSessions w)) = [] /\
  currentSessionId (state (commit clearAllSessions w)) = None /\
  localStorage (commit clearAllSessions w) !! STORAGE_SESSIONS_KEY
  = Some (str "[]").
Proof.
  repeat split. unfold commit, clearAllSessions, persist_effect. simpl.
  apply lookup_insert_eq.
Qed.

(** C2: when the active session is the first of the list, deleting it
    removes it and leaves its id as the active id: [sessions[0]] is read
    from the array of the render before the deletion, so the active id
    references no session of the collection. *)
Theorem deleteSession_first_active_dangling (st : State) (s : ChatSession.t)
    (rest : list ChatSession.t) (storage : gmap jsstring jsstring) :
  sessions st = s :: rest ->
  currentSessionId st = Some (ChatSession.id s) ->
  truthy (ChatSession.id s) = true ->
  let w' := commit (deleteSession st (ChatSession.id s)) (mkWorld st storage) in
  sessions (state w')
  = filter (fun s' => ChatSession.id s' <> ChatSession.id s) rest /\
  currentSessionId (state w') = Some (ChatSession.id s) /\
  ChatSession.id s ∉ ids (sessions (state w')).
Proof.
  intros Hss Hcur Hid w'.
  assert (Hst : state w' =
    mkState (filter (fun s' => ChatSession.id s' <> ChatSession.id s) rest)
            (Some (ChatSession.id s)) (input st) (loading st)).
  { unfold w'. rewrite commit_sessions. unfold deleteSession.
    rewrite decide_True by exact Hcur. simpl. rewrite Hss. simpl.
    rewrite Hid. rewrite filter_cons_False by (intros H; apply H; reflexivity).
    reflexivity. }
  rewrite Hst. simpl. repeat split.
  unfold ids. intros Hin. apply list_elem_of_fmap in Hin as (s' & Heq & Hin).
  apply list_elem_of_filter in Hin as [Hne _]. apply Hne. symmetry. exact Heq.
Qed.

(** X12: [deleteSession] removes the sessions with the given id and no
    other.  In the cases in which [sessions[0]] of the render before the
    deletion is still there afterwards: deleting the active session when it
    is not the first one selects the first one; deleting another session
    keeps the active id; deleting an id that no session has changes no
    session. *)
Lemma deleteSession_other_cases (st : State) (sessionId : jsstring)
    (storage : gmap jsstring jsstring) :
  let w' := commit (deleteSession st sessionId) (mkWorld st storage) in
  sessions (state w')
  = filter (fun s' => ChatSession.id s' <> sessionId) (sessions st) /\
  (forall s0 rest,
     sessions st = s0 :: rest -> ChatSession.id s0 <> sessionId ->
     truthy (ChatSession.id s0) = true ->
     currentSessionId st = Some sessionId ->
     currentSessionId (state w') = head (ids (sessions (state w')))) /\
  (currentSessionId st <> Some sessionId ->
   currentSessionId (state w') = currentSessionId st) /\
  (sessionId ∉ ids (sessions st) -> sessions (state w') = sessions st).
Proof.
  intros w'.
  assert (Hss : sessions (state w')
    = filter (fun s' => ChatSession.id s' <> sessionId) (sessions st)).
  { unfold w', deleteSession. rewrite commit_sessions.
    destruct (decide _); reflexivity. }
  split; [exact Hss|]. split; [|split].
  - intros s0 rest Hst Hne Htr Hcur. rewrite Hss, Hst.
    rewrite filter_cons_True by exact Hne. cbn [ids fmap list_fmap head].
    unfold w', deleteSession. rewrite commit_sessions.
    rewrite decide_True by exact Hcur. cbn [foldl apply_action state
      currentSessionId]. rewrite Hst. cbn [first_id_or_null].
    rewrite Htr. reflexivity.
  - intros Hne. unfold w', deleteSession. rewrite commit_sessions.
    rewrite decide_False by exact Hne. reflexivity.
  - intros Hnot. rewrite Hss. unfold ids in Hnot. clear Hss.
    induction (sessions st) as [|s0 ss IH]; [reflexivity|].
    rewrite fmap_cons in Hnot. apply not_elem_of_cons in Hnot as [Hne Hnot].
    rewrite filter_cons_True by (intros H; apply Hne; symmetry; exact H).
    f_equal. apply IH. exact Hnot.
Qed.

Definition session_1 : ChatSession.t := ChatSession.mk (str "1") (str "t1") [].
Definition session_2 : ChatSession.t := ChatSession.mk (str "2") (str "t2") [].

Lemma deleteSession_first_active_dangling_witness :
  let st := mkState [session_2; session_1] (Some (str "2")) [] false in
  let w' := commit (deleteSession st (str "2")) (mkWorld st ∅) in
  sessions (state w') = [session_1] /\
  currentSessionId (state w') = Some (str "2") /\
  str "2" ∉ ids (sessions (state w')).
Proof.
  intros st.
  exact (deleteSession_first_active_dangling st session_2 [session_1] ∅
           eq_refl eq_refl eq_refl).
Defined.

(** C8 as stated fails: two sessions started at the same clock reading
    carry the same id, so the id of the second is not fresh. *)
Lemma startNewSession_same_clock :
  let w1 := commit (startNewSession 5 (str "a")) (mkWorld initial ∅) in
  let w2 := commit (startNewSession 5 (str "b")) w1 in
  ids (sessions (state w1)) = [str "5"] /\
  ids (sessions (state w2)) = [str "5"; str "5"] /\
  ~ NoDup (ids (sessions (state w2))).
Proof.
  repeat split. intros H. apply NoDup_cons in H as [H _]. apply H. left.
Qed.

(** C8, amended: [startNewSession] puts a session with no message, the
    given timestamp and the decimal text of the clock reading as id in
    front of the sessions that exist, and makes it the active one; the id
    is new when every id in the collection is the text of an earlier
    reading. *)
Theorem startNewSession_front (w : World) (now : N) (iso : jsstring) :
  let w' := commit (startNewSession now iso) w in
  sessions (state w')
  = ChatSession.mk (toString now) iso [] :: sessions (state w) /\
  currentSessionId (state w') = Some (toString now) /\
  currentSession (state w') = Some (ChatSession.mk (toString now) iso []) /\
  ((forall i, i ∈ ids (sessions (state w)) ->
      exists t, i = toString t /\ t < now) ->
   toString now ∉ ids (sessions (state w))).
Proof.
  intros w'. repeat split.
  - unfold w', currentSession. rewrite commit_sessions. simpl.
    rewrite bool_decide_eq_true_2 by reflexivity. reflexivity.
  - intros Hold Hin. destruct (Hold _ Hin) as (t & Heq & Hlt).
    apply toString_inj in Heq. lia.
Qed.

Lemma startNewSession_front_witness :
  let w := commit (startNewSession 5 (str "a")) (mkWorld initial ∅) in
  toString 6 ∉ ids (sessions (state w)).
Proof.
  intros w.
  refine (proj2 (proj2 (proj2 (startNewSession_front w 6 (str "b")))) _).
  intros i Hi. exists 5. split; [|reflexivity].
  apply list_elem_of_singleton in Hi. exact Hi.
Defined.

(** ** The exchange *)

(** C9, amended: with nothing but white space in the input, or with the
    active id null or the empty string, [sendMessage] issues nothing: no
    message is added, no request is sent, and no commit takes place. *)
Theorem sendMessage_noop (st : State) (env : SendEnv) :
  trim (input st) = [] \/ currentSessionId st = None \/
  currentSessionId st = Some [] ->
  sendMessage st env = [] /\
  forall w, commits (blocks (sendMessage st env)) w = [].
Proof.
  intros H.
  assert (Hs : sendMessage st env = []).
  { unfold sendMessage. destruct H as [-> | [-> | ->]]; simpl; [reflexivity| |];
      rewrite orb_true_r; reflexivity. }
  rewrite Hs. split; [reflexivity|]. intros w. reflexivity.
Qed.

Lemma sendMessage_noop_witness :
  sendMessage (mkState [session_1] (Some (str "1")) (str "  ") false)
              (mkSendEnv None 7 [] 8 [] (Rejected OtherValue)) = [] /\
  sendMessage (mkState [session_1] None (str "hi") false)
              (mkSendEnv None 7 [] 8 [] (Rejected OtherValue)) = [].
Proof.
  split.
  - refine (proj1 (sendMessage_noop _ _ _)). left. reflexivity.
  - refine (proj1 (sendMessage_noop _ _ _)). right. left. reflexivity.
Defined.

(** ** [addMessage] *)

(** A call of [addMessage] from the render of the current world, and the
    commit that follows. *)
Definition call_addMessage (w : World) (msg : Message.t) : World :=
  commit (addMessage (state w) msg) w.

(** [in_session] applied to a list of sessions, session by session. *)
Lemma in_session_lookup cur f (ss : list ChatSession.t) (i : nat) :
  in_session cur f ss !! i
  = (fun s => if decide (Some (ChatSession.id s) = cur)
              then ChatSession.with_messages s (f (ChatSession.messages s))
              else s) <$> ss !! i.
Proof. unfold in_session. apply list_lookup_fmap. Qed.

Lemma in_session_find cur f (ss : list ChatSession.t) :
  find (fun s => bool_decide (Some (ChatSession.id s) = cur)) (in_session cur f ss)
  = (fun s => ChatSession.with_messages s (f (ChatSession.messages s)))
    <$> find (fun s => bool_decide (Some (ChatSession.id s) = cur)) ss.
Proof.
  induction ss as [|s ss IH]; [reflexivity|].
  cbn [in_session fmap list_fmap find].
  destruct (decide (Some (ChatSession.id s) = cur)) as [Heq|Hne].
  - cbn [ChatSession.with_messages ChatSession.id].
    rewrite !bool_decide_eq_true_2 by exact Heq. reflexivity.
  - rewrite !bool_decide_eq_false_2 by exact Hne. exact IH.
Qed.

Lemma in_session_None f (ss : list ChatSession.t) : in_session None f ss = ss.
Proof.
  unfold in_session. induction ss as [|s ss IH]; [reflexivity|].
  cbn [fmap list_fmap] in *. rewrite IH.
  rewrite decide_False by discriminate. reflexivity.
Qed.

Lemma call_addMessage_state (w : World) (msg : Message.t) :
  state (call_addMessage w msg)
  = mkState (in_session (currentSessionId (state w)) (fun ms => ms ++ [msg])
               (sessions (state w)))
            (currentSessionId (state w)) (input (state w)) (loading (state w)).
Proof. unfold call_addMessage. rewrite commit_sessions. reflexivity. Qed.

(** The calls [addMessage(m1)], ..., [addMessage(mn)], session by session. *)
Lemma foldl_call_addMessage (w : World) (msgs : list Message.t) :
  state (foldl call_addMessage w msgs)
  = mkState (in_session (currentSessionId (state w)) (fun ms => ms ++ msgs)
               (sessions (state w)))
            (currentSessionId (state w)) (input (state w)) (loading (state w)).
Proof.
  revert w. induction msgs as [|m msgs IH]; intros w.
  - cbn [foldl]. destruct w as [[ss cur i l] ls]. cbn. f_equal.
    unfold in_session. induction ss as [|[i' c ms] ss IHss]; [reflexivity|].
    cbn [fmap list_fmap] in *. rewrite <- IHss.
    unfold ChatSession.with_messages. cbn. rewrite app_nil_r.
    destruct (decide _); reflexivity.
  - cbn [foldl]. rewrite IH, call_addMessage_state.
    cbn [currentSessionId sessions input loading]. f_equal.
    unfold in_session. rewrite <- list_fmap_compose. apply list_fmap_ext.
    intros _ [i' c ms] _. cbn.
    destruct (decide (Some i' = _)) as [Heq|Hne].
    + cbn [ChatSession.with_messages ChatSession.id ChatSession.messages
           ChatSession.createdAt].
      rewrite decide_True by exact Heq.
      unfold ChatSession.with_messages. cbn. rewrite <- app_assoc. reflexivity.
    + rewrite decide_False by exact Hne. reflexivity.
Qed.

(** C6 as stated fails: ids come from the clock, and two sessions started
    at one clock reading share theirs; a message added then lands in both,
    in the active session (the first that [find] meets) and in the other. *)
Lemma addMessage_appends_twice :
  let w1 := commit (startNewSession 5 (str "a")) (mkWorld initial ∅) in
  let w2 := commit (startNewSession 5 (str "b")) w1 in
  let hello := Message.mk (str "10") user (str "hello") None None in
  sessions (state w2)
  = [ChatSession.mk (str "5") (str "b") []; ChatSession.mk (str "5") (str "a") []] /\
  currentSession (state w2) = Some (ChatSession.mk (str "5") (str "b") []) /\
  sessions (state (call_addMessage w2 hello))
  = [ChatSession.mk (str "5") (str "b") [hello];
     ChatSession.mk (str "5") (str "a") [hello]].
Proof. repeat split. Qed.

(** C6, amended: after the calls [addMessage(m1)], ..., [addMessage(mn)],
    the collection has the same sessions in the same places; every session
    whose id is the active id has [m1, ..., mn] appended to its messages in
    this order, every session with another id is the session it was; the
    active session is the one it was with these messages appended; when ids
    are unique, every session but the active one is the session it was; and
    when no session is active (the active id is null, or the id of no
    session) the collection is unchanged. *)
Theorem addMessage_appends (w : World) (msgs : list Message.t) :
  let cur := currentSessionId (state w) in
  let w' := foldl call_addMessage w msgs in
  currentSessionId (state w') = cur /\
  length (sessions (state w')) = length (sessions (state w)) /\
  (forall i s, sessions (state w) !! i = Some s ->
     sessions (state w') !! i
     = Some (if decide (Some (ChatSession.id s) = cur)
             then ChatSession.mk (ChatSession.id s) (ChatSession.createdAt s)
                    (ChatSession.messages s ++ msgs)
             else s)) /\
  (forall s, currentSession (state w) = Some s ->
     currentSession (state w')
     = Some (ChatSession.mk (ChatSession.id s) (ChatSession.createdAt s)
               (ChatSession.messages s ++ msgs))) /\
  (NoDup (ids (sessions (state w))) ->
   forall i j s s',
     sessions (state w) !! i = Some s -> Some (ChatSession.id s) = cur ->
     j <> i -> sessions (state w) !! j = Some s' ->
     sessions (state w') !! j = Some s') /\
  (currentSession (state w) = None ->
   sessions (state w') = sessions (state w)) /\
  (cur = None -> sessions (state w') = sessions (state w)).
Proof.
  cbn zeta. rewrite foldl_call_addMessage. cbn [currentSessionId sessions].
  assert (Hframe : forall i s, sessions (state w) !! i = Some s ->
            in_session (currentSessionId (state w)) (fun ms => ms ++ msgs)
              (sessions (state w)) !! i
            = Some (if decide (Some (ChatSession.id s) = currentSessionId (state w))
                    then ChatSession.mk (ChatSession.id s) (ChatSession.createdAt s)
                           (ChatSession.messages s ++ msgs)
                    else s)).
  { intros i s Hs. rewrite in_session_lookup, Hs. reflexivity. }
  split; [reflexivity|]. split; [apply length_fmap|]. split; [exact Hframe|].
  split; [|split; [|split]].
  - intros s Hs. unfold currentSession in *. cbn [currentSessionId sessions].
    rewrite in_session_find, Hs. reflexivity.
  - intros Hnd i j s s' Hi Hcur Hji Hj. rewrite (Hframe _ _ Hj).
    rewrite decide_False; [reflexivity|].
    intros Hcur'. apply Hji.
    apply (NoDup_lookup _ _ _ (ChatSession.id s) Hnd).
    + unfold ids. rewrite list_lookup_fmap, Hj. cbn. congruence.
    + unfold ids. rewrite list_lookup_fmap, Hi. reflexivity.
  - intros Hnone. apply list_eq. intros i.
    destruct (sessions (state w) !! i) as [s|] eqn:Hs.
    + rewrite (Hframe _ _ Hs). rewrite decide_False; [reflexivity|].
      intros Heq. unfold currentSession in Hnone.
      apply find_none with (x := s) in Hnone.
      * rewrite bool_decide_eq_true_2 in Hnone by exact Heq. discriminate.
      * apply list_elem_of_In. eapply list_elem_of_lookup_2. exact Hs.
    + rewrite in_session_lookup, Hs. reflexivity.
  - intros Hn. rewrite Hn. apply in_session_None.
Qed.

Definition hello : Message.t := Message.mk (str "10") user (str "hello") None None.
Definition world_2 : World :=
  mkWorld (mkState [session_2; session_1] (Some (str "1")) [] false) ∅.

Lemma addMessage_appends_witness :
  sessions (state (foldl call_addMessage world_2 [hello; hello])) !! 1%nat
  = Some (ChatSession.mk (str "1") (str "t1") [hello; hello])
  /\ sessions (state (foldl call_addMessage world_2 [hello; hello])) !! 0%nat
     = Some session_2.
Proof.
  pose proof (addMessage_appends world_2 [hello; hello]) as (_ & _ & _ & _ & H & _).
  split.
  - reflexivity.
  - refine (H _ 1%nat 0%nat session_1 session_2 eq_refl eq_refl _ eq_refl).
    + apply (bool_decide_unpack _). vm_compute. reflexivity.
    + discriminate.
Defined.

(** ** Startup and persistence *)

Lemma persist_effect_persisted (w : World) : persisted (persist_effect w).
Proof. unfold persisted, persist_effect. simpl. apply lookup_insert_eq. Qed.

Lemma JSON_parse_truthy (raw : jsstring) (j : json) :
  JSON_parse raw = Ok j -> truthy raw = true.
Proof. destruct raw; [discriminate|reflexivity]. Qed.

Lemma load_other_Updates (j : json) (us : list Action) :
  load_other j <> Updates us.
Proof. unfold load_other. repeat case_match; discriminate. Qed.

(** The typed view by property name agrees with the strict one. *)
Lemma get_here (key : string) (v : json) (members : list (jsstring * json)) :
  get key ((str key, v) :: members) = Some v.
Proof. unfold get. simpl. rewrite bool_decide_eq_true_2 by done. reflexivity. Qed.

Lemma get_later (key : string) (k : jsstring) (v : json)
    (members : list (jsstring * json)) :
  k <> str key -> get key ((k, v) :: members) = get key members.
Proof.
  intros H. unfold get. simpl. rewrite bool_decide_eq_false_2 by done.
  reflexivity.
Qed.

Lemma get_nil (key : string) : get key [] = None.
Proof. reflexivity. Qed.

Ltac get_property :=
  repeat first
    [ rewrite get_here
    | rewrite get_later by (vm_compute; discriminate)
    | rewrite get_nil ].

Lemma read_message_inv (m : Message.t) :
  read_message (json_of_message m) = Some m.
Proof.
  destruct m as [i r t tm srcs]. unfold json_of_message, read_message.
  cbn [Message.id Message.role Message.text Message.time Message.sources].
  assert (Hr : role_of_name (role_name r) = Some r) by (destruct r; reflexivity).
  destruct tm as [tm|], srcs as [srcs|]; cbn [optional app]; get_property;
    cbn [mbind option_bind string_of_json read_optional fmap option_fmap
         option_map]; rewrite Hr; cbn [mbind option_bind];
    rewrite ?strings_of_json_inv; reflexivity.
Qed.

Lemma read_session_inv (s : ChatSession.t) :
  read_session (json_of_session s) = Some s.
Proof.
  destruct s as [i c ms]. unfold json_of_session, read_session.
  cbn [ChatSession.id ChatSession.createdAt ChatSession.messages].
  get_property. cbn [mbind option_bind string_of_json read_messages].
  rewrite (mapM_fmap_Some read_message json_of_message) by apply read_message_inv.
  reflexivity.
Qed.

Lemma read_sessions_inv (ss : list ChatSession.t) :
  read_sessions (json_of_sessions ss) = Some ss.
Proof. simpl. apply mapM_fmap_Some. apply read_session_inv. Qed.

Lemma read_sessions_strict (j : json) (ss : list ChatSession.t) :
  sessions_of_json j = Some ss -> read_sessions j = Some ss.
Proof. intros ->%sessions_of_json_exact. apply read_sessions_inv. Qed.

(** The updates of the load effect on a collection, applied. *)
Lemma install_state (loaded : list ChatSession.t) (w : World) :
  state w = initial ->
  state (foldl apply_action w
           (SetSessions (fun _ => loaded)
            :: match loaded with
               | s :: _ => [SetCurrentSessionId (Some (ChatSession.id s))]
               | [] => []
               end))
  = mkState loaded (head (ids loaded)) [] false.
Proof. destruct w as [st ls]. simpl. intros ->. destruct loaded; reflexivity. Qed.

(** Startup on a stored text that parses to the array of [loaded]. *)
Lemma mount_installed (storage : gmap jsstring jsstring) (raw : jsstring)
    (loaded : list ChatSession.t) :
  storage !! STORAGE_SESSIONS_KEY = Some raw ->
  JSON_parse raw = Ok (json_of_sessions loaded) ->
  exists w1 w2,
    mount storage = Mounted [w1; w2] /\
    state w1 = initial /\
    state w2 = mkState loaded (head (ids loaded)) [] false /\
    persisted w1 /\ persisted w2.
Proof.
  intros Hraw Hparse. unfold mount, load_effect. rewrite Hraw.
  rewrite (JSON_parse_truthy _ _ Hparse), Hparse, sessions_of_json_inv.
  eexists _, _. split; [reflexivity|]. split; [reflexivity|].
  split; [|split].
  - rewrite commit_sessions. destruct loaded; reflexivity.
  - apply persist_effect_persisted.
  - unfold commit. cbn [existsb sets_sessions orb]. apply persist_effect_persisted.
Qed.

(** Startup on a stored text that parses to a session collection, however
    its objects are laid out. *)
Lemma mount_shows (storage : gmap jsstring jsstring) (raw : jsstring)
    (j : json) (loaded : list ChatSession.t) :
  storage !! STORAGE_SESSIONS_KEY = Some raw ->
  JSON_parse raw = Ok j ->
  read_sessions j = Some loaded ->
  shows (mount storage) = Some (mkState loaded (head (ids loaded)) [] false).
Proof.
  intros Hraw Hparse Hread.
  destruct (sessions_of_json j) as [ss|] eqn:Hstrict.
  - pose proof (read_sessions_strict _ _ Hstrict) as Hss.
    rewrite Hread in Hss. injection Hss as <-.
    apply sessions_of_json_exact in Hstrict. subst j.
    destruct (mount_installed _ _ _ Hraw Hparse) as (w1 & w2 & -> & _ & <- & _).
    reflexivity.
  - unfold mount, load_effect. rewrite Hraw.
    rewrite (JSON_parse_truthy _ _ Hparse), Hparse, Hstrict.
    destruct j as [| | | |items|]; try discriminate.
    destruct items as [|item items].
    + discriminate.
    + destruct item; try discriminate; unfold load_other; rewrite Hread;
        unfold shows; f_equal; apply install_state; reflexivity.
Qed.

(** What the load effect does on a parsed [null], and on a parsed array
    whose first element is [null]. *)
Lemma load_effect_null (raw : jsstring) (j : json) :
  JSON_parse raw = Ok j ->
  j = JNull \/ (exists rest, j = JArr (JNull :: rest)) ->
  load_effect (Some raw) = Throws TypeErrorThrown.
Proof.
  intros Hparse Hj. unfold load_effect.
  rewrite (JSON_parse_truthy _ _ Hparse), Hparse.
  destruct Hj as [->|[rest ->]]; reflexivity.
Qed.

(** C3 as stated fails: a stored text that is not JSON makes [JSON.parse]
    throw inside the load effect, where nothing catches it; startup does not
    end with an empty collection, it ends with the error.  So does the
    stored text [null], which parses: reading [loaded.length] throws. *)
Lemma mount_unparsable_crashes :
  JSON_parse (str "{") = SyntaxError /\
  load_effect (Some (str "{")) = Throws SyntaxErrorThrown /\
  mount {[ STORAGE_SESSIONS_KEY := str "{" ]} = Crashed /\
  (~ exists ws, mount {[ STORAGE_SESSIONS_KEY := str "{" ]} = Mounted ws) /\
  JSON_parse (str "null") = Ok JNull /\
  load_effect (Some (str "null")) = Throws TypeErrorThrown /\
  mount {[ STORAGE_SESSIONS_KEY := str "null" ]} = Crashed.
Proof.
  assert (H : mount {[ STORAGE_SESSIONS_KEY := str "{" ]} = Crashed).
  { unfold mount. rewrite lookup_singleton_eq. reflexivity. }
  split; [reflexivity|]. split; [reflexivity|]. split; [exact H|].
  split; [intros [ws Hws]; rewrite H in Hws; discriminate|].
  split; [reflexivity|]. split; [reflexivity|].
  unfold mount. rewrite lookup_singleton_eq. reflexivity.
Qed.

(** C3, amended: with no entry under the key, or an empty one, startup
    commits once, with the empty collection and no active session; with an
    entry that parses to a session collection (an array of objects with
    the properties of a session, in any order, possibly among others),
    startup ends showing this collection with its first session active
    (none when it is empty), after a first commit of the empty collection
    when the entry is laid out as the component writes it; with a
    non-empty entry that does not parse, the syntax error of [JSON.parse]
    escapes from the load effect; with an entry that parses to [null] or
    to an array whose first element is [null], a type error escapes from
    the load effect; any other parsed value was passed to [setSessions]
    unchecked. *)
Theorem mount_load (storage : gmap jsstring jsstring) :
  (storage !! STORAGE_SESSIONS_KEY = None \/
   storage !! STORAGE_SESSIONS_KEY = Some [] ->
   exists w1, mount storage = Mounted [w1] /\ state w1 = initial) /\
  (forall raw j loaded,
     storage !! STORAGE_SESSIONS_KEY = Some raw ->
     JSON_parse raw = Ok j ->
     read_sessions j = Some loaded ->
     shows (mount storage)
     = Some (mkState loaded
               match loaded with
               | s :: _ => Some (ChatSession.id s)
               | [] => None
               end [] false)) /\
  (forall raw loaded,
     storage !! STORAGE_SESSIONS_KEY = Some raw ->
     JSON_parse raw = Ok (json_of_sessions loaded) ->
     exists w1 w2, mount storage = Mounted [w1; w2] /\
       state w1 = initial /\
       state w2 = mkState loaded (head (ids loaded)) [] false) /\
  (forall raw,
     storage !! STORAGE_SESSIONS_KEY = Some raw -> raw <> [] ->
     JSON_parse raw = SyntaxError ->
     load_effect (Some raw) = Throws SyntaxErrorThrown /\
     mount storage = Crashed) /\
  (forall raw j,
     storage !! STORAGE_SESSIONS_KEY = Some raw ->
     JSON_parse raw = Ok j ->
     j = JNull \/ (exists rest, j = JArr (JNull :: rest)) ->
     load_effect (Some raw) = Throws TypeErrorThrown /\
     mount storage = Crashed) /\
  (forall raw j,
     storage !! STORAGE_SESSIONS_KEY = Some raw ->
     JSON_parse raw = Ok j ->
     read_sessions j = None ->
     j <> JNull -> (forall rest, j <> JArr (JNull :: rest)) ->
     load_effect (Some raw) = Untyped j /\ mount storage = OutsideType j).
Proof.
  split; [|split; [|split; [|split; [|split]]]].
  - intros [H|H]; unfold mount; rewrite H; eexists; split; reflexivity.
  - intros raw j loaded Hraw Hparse Hread.
    rewrite (mount_shows _ _ _ _ Hraw Hparse Hread).
    destruct loaded; reflexivity.
  - intros raw loaded Hraw Hparse.
    destruct (mount_installed _ _ _ Hraw Hparse) as (w1 & w2 & H1 & H2 & H3 & _).
    eauto.
  - intros raw Hraw Hne Hparse. unfold mount. rewrite Hraw. unfold load_effect.
    rewrite Hparse. destruct raw; [contradiction|]. split; reflexivity.
  - intros raw j Hraw Hparse Hj. unfold mount. rewrite Hraw.
    rewrite (load_effect_null _ _ Hparse Hj). split; reflexivity.
  - intros raw j Hraw Hparse Hread Hnull Hfirst.
    assert (Hload : load_effect (Some raw) = Untyped j).
    { unfold load_effect. rewrite (JSON_parse_truthy _ _ Hparse), Hparse.
      destruct (sessions_of_json j) as [ss|] eqn:Hstrict.
      - apply read_sessions_strict in Hstrict. congruence.
      - destruct j as [| | | |items|]; try reflexivity; try contradiction.
        destruct items as [|item items]; [discriminate|].
        destruct item; try (exfalso; eapply Hfirst; reflexivity);
          unfold load_other; rewrite Hread; reflexivity. }
    unfold mount. rewrite Hraw, Hload. split; reflexivity.
Qed.

Definition stored_1 : jsstring := stringify (json_of_sessions [session_1]).

(** A collection as another writer would store it: the properties in
    another order, with one the component does not know. *)
Definition foreign_1 : json :=
  JArr [JObj [(str "messages",
               JArr [JObj [(str "text", JStr (str "hi"));
                           (str "seen", JBool true);
                           (str "role", JStr (str "user"));
                           (str "id", JStr (str "8"))]]);
              (str "pinned", JBool true);
              (str "createdAt", JStr (str "t7"));
              (str "id", JStr (str "7"))]].

Lemma mount_load_witness :
  (exists w1, mount ∅ = Mounted [w1] /\ state w1 = initial) /\
  shows (mount {[ STORAGE_SESSIONS_KEY := stringify foreign_1 ]})
  = Some (mkState
            [ChatSession.mk (str "7") (str "t7")
               [Message.mk (str "8") user (str "hi") None None]]
            (Some (str "7")) [] false) /\
  (exists w1 w2, mount {[ STORAGE_SESSIONS_KEY := stored_1 ]} = Mounted [w1; w2] /\
     state w1 = initial /\
     state w2 = mkState [session_1] (Some (str "1")) [] false) /\
  (load_effect (Some (str "[1,")) = Throws SyntaxErrorThrown /\
   mount {[ STORAGE_SESSIONS_KEY := str "[1," ]} = Crashed) /\
  (load_effect (Some (str "[null]")) = Throws TypeErrorThrown /\
   mount {[ STORAGE_SESSIONS_KEY := str "[null]" ]} = Crashed) /\
  (load_effect (Some (str "{}")) = Untyped (JObj []) /\
   mount {[ STORAGE_SESSIONS_KEY := str "{}" ]} = OutsideType (JObj [])).
Proof.
  split; [|split; [|split; [|split; [|split]]]].
  - apply (proj1 (mount_load ∅)). left. reflexivity.
  - apply (proj1 (proj2 (mount_load {[ STORAGE_SESSIONS_KEY := stringify foreign_1 ]}))
             (stringify foreign_1) foreign_1).
    + apply lookup_singleton_eq.
    + vm_compute. reflexivity.
    + vm_compute. reflexivity.
  - apply (proj1 (proj2 (proj2 (mount_load {[ STORAGE_SESSIONS_KEY := stored_1 ]})))
             stored_1 [session_1]).
    + apply lookup_singleton_eq.
    + vm_compute. reflexivity.
  - apply (proj1 (proj2 (proj2 (proj2
             (mount_load {[ STORAGE_SESSIONS_KEY := str "[1," ]}))))
             (str "[1,")).
    + apply lookup_singleton_eq.
    + discriminate.
    + vm_compute. reflexivity.
  - apply (proj1 (proj2 (proj2 (proj2 (proj2
             (mount_load {[ STORAGE_SESSIONS_KEY := str "[null]" ]})))))
             (str "[null]") (JArr [JNull])).
    + apply lookup_singleton_eq.
    + vm_compute. reflexivity.
    + right. exists []. reflexivity.
  - apply (proj2 (proj2 (proj2 (proj2 (proj2
             (mount_load {[ STORAGE_SESSIONS_KEY := str "{}" ]})))))
             (str "{}") (JObj [])).
    + apply lookup_singleton_eq.
    + vm_compute. reflexivity.
    + reflexivity.
    + discriminate.
    + discriminate.
Defined.

(** C7: whatever the collection, the text the persist effect stores for it
    is read back at the next startup as the same collection: the same
    sessions in the same order with the same messages, the first one
    active. *)
Theorem persist_then_mount (st : State) (storage : gmap jsstring jsstring) :
  exists w1 w2,
    mount (localStorage (persist_effect (mkWorld st storage))) = Mounted [w1; w2] /\
    sessions (state w2) = sessions st /\
    currentSessionId (state w2) = head (ids (sessions st)) /\
    localStorage w2 !! STORAGE_SESSIONS_KEY
    = localStorage (persist_effect (mkWorld st storage)) !! STORAGE_SESSIONS_KEY.
Proof.
  destruct (mount_installed (localStorage (persist_effect (mkWorld st storage)))
              (stringify (json_of_sessions (sessions st))) (sessions st))
    as (w1 & w2 & Hm & _ & H2 & _ & Hp).
  - apply persist_effect_persisted.
  - apply JSON_parse_stringify_sessions.
  - exists w1, w2. split; [exact Hm|]. rewrite H2. repeat split.
    rewrite Hp, H2. simpl. symmetry. apply lookup_insert_eq.
Qed.

(** *** The stored entry follows the collection *)

Definition removes (a : Action) : bool :=
  match a with
  | RemoveItem _ => true
  | _ => false
  end.

(** A script that never calls [removeItem]. *)
Definition keeps_storage (script : list Action) : Prop :=
  existsb removes script = false.

Lemma foldl_apply_action_quiet (b : list Action) (w : World) :
  existsb sets_sessions b = false -> existsb removes b = false ->
  sessions (state (foldl apply_action w b)) = sessions (state w) /\
  localStorage (foldl apply_action w b) = localStorage w.
Proof.
  revert w. induction b as [|a b IH]; intros w Hs Hr; [split; reflexivity|].
  cbn [existsb] in Hs, Hr.
  apply orb_false_iff in Hs as [Hs1 Hs2]. apply orb_false_iff in Hr as [Hr1 Hr2].
  cbn [foldl]. destruct (IH (apply_action w a) Hs2 Hr2) as [-> ->].
  destruct a; try discriminate; split; reflexivity.
Qed.

Lemma commit_persisted (b : list Action) (w : World) :
  existsb sets_sessions b = true \/ (persisted w /\ keeps_storage b) ->
  persisted (commit b w).
Proof.
  unfold commit. destruct (existsb sets_sessions b) eqn:Hs.
  - intros _. apply persist_effect_persisted.
  - intros [H|[Hp Hk]]; [discriminate|].
    destruct (foldl_apply_action_quiet b w Hs Hk) as [H1 H2].
    unfold persisted. rewrite H1, H2. exact Hp.
Qed.

Lemma blocks_keeps_storage (script : list Action) :
  keeps_storage script -> Forall keeps_storage (blocks script).
Proof.
  unfold keeps_storage.
  induction script as [|a script IH]; intros H; cbn [blocks].
  - repeat constructor.
  - cbn [existsb] in H. apply orb_false_iff in H as [Ha H].
    specialize (IH H). destruct (suspends a).
    + constructor; [reflexivity|exact IH].
    + destruct (blocks script) as [|b bs].
      * repeat constructor. simpl. rewrite Ha. reflexivity.
      * apply Forall_cons in IH as [Hb Hbs]. constructor; [|exact Hbs].
        unfold keeps_storage. simpl. rewrite Ha. exact Hb.
Qed.

Lemma keeps_storage_app (s1 s2 : list Action) :
  keeps_storage s1 -> keeps_storage s2 -> keeps_storage (s1 ++ s2).
Proof.
  unfold keeps_storage. intros H1 H2. rewrite existsb_app, H1, H2. reflexivity.
Qed.

Lemma typing_keeps_storage cur botId (displayed remaining : jsstring) :
  keeps_storage (typing cur botId displayed remaining).
Proof.
  revert displayed. induction remaining as [|c rest IH]; intros displayed;
    [reflexivity|].
  unfold keeps_storage. simpl. apply IH.
Qed.

Lemma sendMessage_keeps_storage (st : State) (env : SendEnv) :
  keeps_storage (sendMessage st env).
Proof.
  unfold sendMessage. destruct (_ || _); [reflexivity|].
  repeat apply keeps_storage_app; try reflexivity.
  unfold on_outcome.
  destruct (outcome env) as [err|status body]; [reflexivity|].
  destruct (ok status); [|reflexivity].
  destruct body as [err|data]; [reflexivity|].
  apply keeps_storage_app; [apply typing_keeps_storage|reflexivity].
Qed.

Lemma handler_keeps_storage (e : Event) (st : State) :
  e <> ClearAll -> keeps_storage (handler e st).
Proof.
  destruct e; intros He; try reflexivity; try contradiction.
  - unfold handler, deleteSession. destruct (decide _); reflexivity.
  - apply sendMessage_keeps_storage.
Qed.

(** What every reachable page satisfies: the entry is the text of the
    collection, and no suspended handler will call [removeItem]. *)
Definition page_ok (p : Page) : Prop :=
  persisted (world p) /\ Forall (Forall keeps_storage) (tasks p).

Lemma suspend_ok bs ts :
  Forall keeps_storage bs -> Forall (Forall keeps_storage) ts ->
  Forall (Forall keeps_storage) (suspend bs ts).
Proof.
  intros Hbs Hts. destruct bs as [|b bs]; [exact Hts|].
  cbn [suspend]. apply Forall_app. split; [exact Hts|].
  constructor; [exact Hbs|constructor].
Qed.

Lemma step_page_ok (p p' : Page) : page_ok p -> step p p' -> page_ok p'.
Proof.
  intros [Hp Hts] Hstep. destruct Hstep as [e p b bs Hen Hb|i p b bs Hi].
  - assert (He : e = ClearAll \/ e <> ClearAll)
      by (destruct e; (left; reflexivity) || (right; discriminate)).
    destruct He as [->|Hne].
    + injection Hb as <- <-. split; [|exact Hts].
      apply commit_persisted. left. reflexivity.
    + pose proof (blocks_keeps_storage _
        (handler_keeps_storage e (state (world p)) Hne)) as Hk.
      rewrite Hb in Hk. apply Forall_cons in Hk as [Hkb Hkbs].
      split; [apply commit_persisted; right; split; assumption|].
      apply suspend_ok; assumption.
  - assert (Hk : Forall keeps_storage (b :: bs)).
    { rewrite Forall_forall in Hts. apply Hts.
      apply list_elem_of_lookup. exists i. exact Hi. }
    apply Forall_cons in Hk as [Hkb Hkbs].
    split; [apply commit_persisted; right; split; assumption|].
    apply suspend_ok; [exact Hkbs|]. apply Forall_delete. exact Hts.
Qed.

Lemma mount_persisted storage ws :
  mount storage = Mounted ws -> Forall persisted ws.
Proof.
  unfold mount.
  destruct (load_effect _) as [us|e|j us|j] eqn:Hload; try discriminate.
  intros [= <-]. constructor; [apply persist_effect_persisted|].
  destruct us as [|u us]; [constructor|]. constructor; [|constructor].
  apply commit_persisted.
  unfold load_effect in Hload.
  destruct (storage !! STORAGE_SESSIONS_KEY) as [raw|]; [|discriminate].
  destruct (truthy raw); [|discriminate].
  destruct (JSON_parse raw) as [j| |]; try discriminate.
  destruct (sessions_of_json j); [|destruct (load_other_Updates _ _ Hload)].
  injection Hload as <- <-. left. reflexivity.
Qed.

Lemma reachable_page_ok (p : Page) : reachable p -> page_ok p.
Proof.
  induction 1 as [storage ws w Hm Hlast|p p' _ IH Hstep].
  - split; [|constructor]. cbn [world].
    apply mount_persisted in Hm. rewrite Forall_forall in Hm. apply Hm.
    apply last_Some_elem_of. exact Hlast.
  - exact (step_page_ok _ _ IH Hstep).
Qed.

(** C10: after every commit the storage key holds the text of the
    collection of that commit: after both commits of startup, on every
    page the user can reach (whatever the order in which events and
    suspended handlers run), after any commit in which [setSessions] was
    called; with no entry before startup, the first commit leaves an entry
    with the text of the empty collection; and so does the commit that
    [clearAllSessions] triggers. *)
Theorem persisted_after_every_commit :
  (forall storage ws, mount storage = Mounted ws -> Forall persisted ws) /\
  (forall p, reachable p -> persisted (world p)) /\
  (forall b w, existsb sets_sessions b = true -> persisted (commit b w)) /\
  (forall storage, storage !! STORAGE_SESSIONS_KEY = None ->
     exists w1, mount storage = Mounted [w1] /\
       sessions (state w1) = [] /\
       localStorage w1 !! STORAGE_SESSIONS_KEY = Some (str "[]")) /\
  (forall w, persisted (commit clearAllSessions w) /\
     localStorage (commit clearAllSessions w) !! STORAGE_SESSIONS_KEY
     = Some (str "[]")).
Proof.
  split; [exact mount_persisted|].
  split; [intros p Hp; apply (reachable_page_ok p Hp)|].
  split; [intros b w Hb; apply commit_persisted; left; exact Hb|].
  split.
  - intros storage Hnone. unfold mount. rewrite Hnone. eexists.
    split; [reflexivity|]. split; [reflexivity|].
    apply lookup_insert_eq.
  - intros w. split.
    + apply commit_persisted. left. reflexivity.
    + unfold commit, persist_effect. simpl. apply lookup_insert_eq.
Qed.

(** Pages reached by starting on an empty storage, opening a chat and
    clearing all. *)
Definition page_mounted : Page :=
  mkPage (persist_effect (mkWorld initial ∅)) [].
Definition page_chat : Page :=
  mkPage (commit (startNewSession 5 (str "a")) (world page_mounted)) [].
Definition page_cleared : Page :=
  mkPage (commit clearAllSessions (world page_chat)) [].

Lemma page_cleared_reachable : reachable page_cleared.
Proof.
  apply (reachable_step page_chat).
  - apply (reachable_step page_mounted).
    + exact (reachable_mount ∅ [persist_effect (mkWorld initial ∅)] _
               eq_refl eq_refl).
    + exact (step_event (NewChat 5 (str "a")) page_mounted
               (startNewSession 5 (str "a")) [] I eq_refl).
  - exact (step_event ClearAll page_chat clearAllSessions [] I eq_refl).
Defined.

Lemma persisted_after_every_commit_witness :
  Forall persisted [persist_effect (mkWorld initial ∅)] /\
  persisted (world page_cleared).
Proof.
  split.
  - apply (proj1 persisted_after_every_commit ∅). reflexivity.
  - apply (proj1 (proj2 persisted_after_every_commit)).
    exact page_cleared_reachable.
Defined.

(** ** One exchange, run without interruption *)

Definition is_fetch (a : Action) : bool :=
  match a with
  | Fetch _ _ => true
  | _ => false
  end.

(** C9 as stated fails: after New Chat and the deletion of that chat, the
    active id is still the id of the deleted session, so no session is
    active; a question typed then passes the guard, which looks at the id
    alone, and the request is sent. *)
Definition page_deleted : Page :=
  mkPage (commit (deleteSession (state (world page_chat)) (str "5"))
            (world page_chat)) [].
Definition page_typed : Page :=
  mkPage (commit [SetInput (str "hi")] (world page_deleted)) [].

Lemma sendMessage_no_session_sends :
  let st := state (world page_typed) in
  let env := mkSendEnv None 7 (str "t7") 8 (str "t8") (Rejected OtherValue) in
  reachable page_typed /\
  st = mkState [] (Some (str "5")) (str "hi") false /\
  currentSession st = None /\
  List.filter is_fetch (sendMessage st env)
  = [Fetch (str "http://127.0.0.1:8000/ask") (ask_body (str "hi"))] /\
  length (commits (blocks (sendMessage st env)) (world page_typed)) = 2%nat.
Proof.
  split; [|repeat split].
  apply (reachable_step page_deleted).
  - apply (reachable_step page_chat).
    + apply (reachable_step page_mounted).
      * exact (reachable_mount ∅ [persist_effect (mkWorld initial ∅)] _
                 eq_refl eq_refl).
      * exact (step_event (NewChat 5 (str "a")) page_mounted
                 (startNewSession 5 (str "a")) [] I eq_refl).
    + refine (step_event (Delete (str "5")) page_chat
                (deleteSession (state (world page_chat)) (str "5")) [] _ eq_refl).
      cbn. apply list_elem_of_here.
  - exact (step_event (Edit (str "hi")) page_deleted
             [SetInput (str "hi")] [] eq_refl eq_refl).
Qed.

Lemma typing_no_fetch cur botId (displayed remaining : jsstring) :
  List.filter is_fetch (typing cur botId displayed remaining) = [].
Proof.
  revert displayed. induction remaining as [|c rest IH]; intros displayed;
    [reflexivity|]. simpl. apply IH.
Qed.

Lemma on_outcome_no_fetch cur botId (o : FetchOutcome) :
  List.filter is_fetch (on_outcome cur botId o) = [].
Proof.
  unfold on_outcome. destruct o as [err|status body]; [reflexivity|].
  destruct (ok status); [|reflexivity].
  destruct body as [err|data]; [reflexivity|].
  cbn [List.filter is_fetch].
  rewrite List.filter_app, typing_no_fetch. reflexivity.
Qed.

Lemma blocks_prefix (xs : list Action) (a : Action) (rest : list Action) :
  existsb suspends xs = false -> suspends a = true ->
  blocks (xs ++ a :: rest) = xs :: blocks rest.
Proof.
  intros Hxs Ha. induction xs as [|x xs IH]; cbn [app blocks].
  - rewrite Ha. reflexivity.
  - cbn [existsb] in Hxs. apply orb_false_iff in Hxs as [Hx Hxs].
    rewrite Hx, (IH Hxs). reflexivity.
Qed.

Section Exchange.
(** The render in which the user presses Send, and what the platform
    answers. *)
Variable st : State.
Variable env : SendEnv.
Variable storage : gmap jsstring jsstring.

(** The active session [s], the sessions before and after it. *)
Variable cur : jsstring.
Variable s : ChatSession.t.
Variables pre post : list ChatSession.t.

Hypothesis Hinput : truthy (trim (input st)) = true.
Hypothesis Hcur : currentSessionId st = Some cur.
Hypothesis Htruthy : truthy cur = true.
Hypothesis Hsessions : sessions st = pre ++ s :: post.
Hypothesis Hs : ChatSession.id s = cur.
(** No other session has the id of the active one. *)
Hypothesis Hpre : cur ∉ ids pre.
Hypothesis Hpost : cur ∉ ids post.

Definition userMsg : Message.t :=
  Message.mk (toString (user_now env)) user (trim (input st))
             (Some (user_iso env)) None.

(** The placeholder. *)
Definition botMsg : Message.t :=
  Message.mk (toString (bot_now env + 1)) bot [] (Some (bot_iso env)) None.

(** The clock did not go back between the two messages, and no earlier
    message of the session has the id of the placeholder. *)
Hypothesis Hclock : user_now env <= bot_now env.
Hypothesis Hfresh : Message.id botMsg ∉ Message.id <$> ChatSession.messages s.

(** The collection in which the active session ends with the question
    and [m], and nothing else differs from the collection of [st]. *)
Definition shown (m : Message.t) : list ChatSession.t :=
  pre
  ++ ChatSession.with_messages s (ChatSession.messages s ++ [userMsg; m])
  :: post.

Lemma in_session_other f (ss : list ChatSession.t) :
  cur ∉ ids ss -> in_session (Some cur) f ss = ss.
Proof.
  unfold in_session, ids. induction ss as [|s' ss IH]; intros Hn;
    [reflexivity|].
  cbn [fmap list_fmap] in *. apply not_elem_of_cons in Hn as [Hne Hn].
  rewrite decide_False by (intros [= H]; apply Hne; symmetry; exact H).
  f_equal. apply IH. exact Hn.
Qed.

Lemma in_session_active f (ms : list Message.t) :
  in_session (Some cur) f (pre ++ ChatSession.with_messages s ms :: post)
  = pre ++ ChatSession.with_messages s (f ms) :: post.
Proof.
  unfold in_session at 1. rewrite fmap_app, fmap_cons.
  fold (in_session (Some cur) f pre). fold (in_session (Some cur) f post).
  rewrite !in_session_other by assumption.
  cbn [ChatSession.with_messages ChatSession.id ChatSession.messages].
  rewrite decide_True by (f_equal; exact Hs). reflexivity.
Qed.

Lemma userMsg_not_bot : Message.id userMsg <> Message.id botMsg.
Proof.
  cbn [userMsg botMsg Message.id]. intros H. apply toString_inj in H. lia.
Qed.

Lemma patch_other botId g (ms : list Message.t) :
  botId ∉ Message.id <$> ms -> patch botId g ms = ms.
Proof.
  unfold patch. induction ms as [|m ms IH]; intros Hn; [reflexivity|].
  cbn [fmap list_fmap] in *. apply not_elem_of_cons in Hn as [Hne Hn].
  rewrite decide_False by (intros H; apply Hne; symmetry; exact H).
  f_equal. apply IH. exact Hn.
Qed.

(** An update of the placeholder changes the placeholder and nothing
    else. *)
Lemma in_session_patch_shown g (m : Message.t) :
  Message.id m = Message.id botMsg ->
  in_session (Some cur) (patch (Message.id botMsg) g) (shown m) = shown (g m).
Proof.
  intros Hm. unfold shown. rewrite in_session_active. do 3 f_equal.
  unfold patch at 1. rewrite fmap_app.
  fold (patch (Message.id botMsg) g (ChatSession.messages s)).
  rewrite patch_other by exact Hfresh.
  cbn [fmap list_fmap].
  rewrite decide_False by exact userMsg_not_bot.
  rewrite decide_True by exact Hm. reflexivity.
Qed.

Lemma sendMessage_script :
  sendMessage st env
  = (addMessage st userMsg ++ [SetInput []; SetLoading true]
     ++ addMessage st botMsg)
    ++ Fetch (backend env ++ str "/ask") (ask_body (trim (input st)))
    :: (on_outcome (Some cur) (Message.id botMsg) (outcome env)
        ++ [SetLoading false]).
Proof.
  unfold sendMessage. rewrite Hinput, Hcur. cbn [from_option negb orb].
  rewrite Htruthy. reflexivity.
Qed.

(** The world after the first commit: the question and the placeholder
    are in the active session, the input is empty, [loading] is set. *)
Definition asked : World :=
  persist_effect (mkWorld (mkState (shown botMsg) (Some cur) [] true) storage).

Lemma sendMessage_asked :
  commit (addMessage st userMsg ++ [SetInput []; SetLoading true]
          ++ addMessage st botMsg) (mkWorld st storage)
  = asked.
Proof.
  unfold commit, asked.
  cbn [addMessage app foldl apply_action existsb sets_sessions orb
       state sessions currentSessionId input loading localStorage].
  rewrite Hcur, Hsessions. do 3 f_equal.
  replace s with (ChatSession.with_messages s (ChatSession.messages s))
    at 1 by (destruct s; reflexivity).
  rewrite !in_session_active. unfold shown.
  rewrite <- app_assoc. reflexivity.
Qed.

Lemma sendMessage_blocks :
  commits (blocks (sendMessage st env)) (mkWorld st storage)
  = asked
    :: commits
         (blocks (on_outcome (Some cur) (Message.id botMsg) (outcome env)
                  ++ [SetLoading false]))
         asked.
Proof.
  rewrite sendMessage_script, blocks_prefix by reflexivity.
  cbn [commits]. rewrite sendMessage_asked. reflexivity.
Qed.
End Exchange.

(** *** An exchange on a concrete page *)

Definition st_asking : State :=
  mkState [session_2; session_1] (Some (str "1")) (str " hi ") false.

Definition env_answered : SendEnv :=
  mkSendEnv None 100 (str "t") 100 (str "t")
    (Responded 200 (inr (mkAskData (Some (str "ok")) None))).

Definition env_failed : SendEnv :=
  mkSendEnv None 100 (str "t") 100 (str "t") (Responded 500 (inl OtherValue)).

Lemma session_1_alone : str "1" ∉ ids [session_2].
Proof.
  apply not_elem_of_cons. split; [discriminate|apply not_elem_of_nil].
Qed.

(** *** The exchange on any collection *)

(** What the claims say of the collection, record by record.  [appended]:
    every session whose id is [cur] has gained [msgs] at the end of its
    messages. *)
Definition appended (cur : jsstring) (msgs : list Message.t)
    (ss : list ChatSession.t) : list ChatSession.t :=
  (fun s => if decide (ChatSession.id s = cur)
            then ChatSession.mk (ChatSession.id s) (ChatSession.createdAt s)
                   (ChatSession.messages s ++ msgs)
            else s) <$> ss.


Lemma in_session_appended cur msgs (ss : list ChatSession.t) :
  in_session (Some cur) (fun ms => ms ++ msgs) ss = appended cur msgs ss.
Proof.
  unfold in_session, appended. apply list_fmap_ext. intros _ s _.
  destruct (decide (ChatSession.id s = cur)) as [Heq|Hne].
  - rewrite decide_True by (f_equal; exact Heq). reflexivity.
  - rewrite decide_False by (intros [= H]; exact (Hne H)). reflexivity.
Qed.





Lemma appended_appended cur msgs msgs' (ss : list ChatSession.t) :
  appended cur msgs' (appended cur msgs ss) = appended cur (msgs ++ msgs') ss.
Proof.
  unfold appended. rewrite <- list_fmap_compose. apply list_fmap_ext.
  intros _ s _. cbn [compose].
  destruct (decide (ChatSession.id s = cur)) as [Heq|Hne].
  - cbn [ChatSession.id ChatSession.createdAt ChatSession.messages].
    rewrite decide_True by exact Heq. rewrite <- app_assoc. reflexivity.
  - rewrite decide_False by exact Hne. reflexivity.
Qed.





Section Outcome.
Variable st : State.
Variable env : SendEnv.
Variable storage : gmap jsstring jsstring.
Variable cur : jsstring.

(** The guard of [sendMessage] lets the call through. *)
Hypothesis Hinput : truthy (trim (input st)) = true.
Hypothesis Hcur : currentSessionId st = Some cur.
Hypothesis Htruthy : truthy cur = true.

Local Abbreviation botId := (toString (bot_now env + 1)).

(** The commit before the request. *)
Lemma sendMessage_first :
  exists w_asked,
    commits (blocks (sendMessage st env)) (mkWorld st storage)
    = w_asked
      :: commits (blocks (on_outcome (Some cur) botId (outcome env)
                          ++ [SetLoading false])) w_asked /\
    state w_asked
    = mkState
        (appended cur
           [Message.mk (toString (user_now env)) user (trim (input st))
              (Some (user_iso env)) None;
            Message.mk botId bot [] (Some (bot_iso env)) None]
           (sessions st))
        (Some cur) [] true.
Proof.
  eexists. split.
  - rewrite (sendMessage_script st env cur Hinput Hcur Htruthy).
    rewrite blocks_prefix by reflexivity. cbn [commits addMessage app].
    reflexivity.
  - rewrite commit_sessions.
    cbn [addMessage app foldl apply_action state sessions currentSessionId
         input loading].
    rewrite Hcur, !in_session_appended, appended_appended. reflexivity.
Qed.



End Outcome.







(** *** The exchange of the help page, end to end *)

Definition env_fraud : SendEnv :=
  mkSendEnv None 1700000000100 (str "2023-11-14T22:13:20.100Z")
    1700000000100 (str "2023-11-14T22:13:20.100Z")
    (Responded 200
       (inr (mkAskData (Some (str "A fraud alert flags suspicious activity."))
                       (Some [str "https://example.com/help"])))).

(** The user opens a chat on an empty storage, types the question and
    sends it; the backend answers. *)
Definition world_fraud : option World :=
  let w1 := commit (startNewSession 1700000000000 (str "2023-11-14T22:13:20.000Z"))
              (persist_effect (mkWorld initial ∅)) in
  let w2 := commit [SetInput (str "What is a fraud alert? ")] w1 in
  last (commits (blocks (sendMessage (state w2) env_fraud)) w2).

Example fraud_alert_exchange :
  state <$> world_fraud
  = Some (mkState
      [ChatSession.mk (str "1700000000000") (str "2023-11-14T22:13:20.000Z")
         [Message.mk (str "1700000000100") user (str "What is a fraud alert?")
            (Some (str "2023-11-14T22:13:20.100Z")) None;
          Message.mk (str "1700000000101") bot
            (str "A fraud alert flags suspicious activity.")
            (Some (str "2023-11-14T22:13:20.100Z"))
            (Some [str "https://example.com/help"])]]
      (Some (str "1700000000000")) [] false).
Proof. vm_compute. reflexivity. Qed.

(** One commit for the question and the placeholder, one per character of
    the answer, one for the final update. *)
Example fraud_alert_commits :
  let st := mkState [ChatSession.mk (str "1") (str "t") []] (Some (str "1"))
              (str "What is a fraud alert?") false in
  length (commits (blocks (sendMessage st env_fraud)) (mkWorld st ∅))
  = (1 + length (str "A fraud alert flags suspicious activity.") + 1)%nat.
Proof. vm_compute. reflexivity. Qed.

(** * Further properties of the component *)

(** ** Blocks and commits in general *)

Lemma blocks_Forall (P : Action -> Prop) (script : list Action) :
  Forall P script -> Forall (Forall P) (blocks script).
Proof.
  induction script as [|a script IH]; intros H; cbn [blocks].
  - repeat constructor.
  - apply Forall_cons in H as [Ha H]. specialize (IH H).
    destruct (suspends a).
    + constructor; [constructor|exact IH].
    + destruct (blocks script) as [|b bs].
      * repeat constructor. exact Ha.
      * apply Forall_cons in IH as [Hb Hbs].
        constructor; [constructor; assumption|exact Hbs].
Qed.

(** A handler that never awaits runs in one block. *)
Lemma blocks_no_suspend (script : list Action) :
  existsb suspends script = false -> blocks script = [script].
Proof.
  induction script as [|a script IH]; intros H; [reflexivity|].
  cbn [existsb] in H. apply orb_false_iff in H as [Ha H].
  cbn [blocks]. rewrite Ha, (IH H). reflexivity.
Qed.

(** An action added after the last await joins the last block. *)
Lemma blocks_snoc (script : list Action) (a : Action) :
  suspends a = false ->
  exists bs b, blocks script = bs ++ [b] /\
    blocks (script ++ [a]) = bs ++ [b ++ [a]].
Proof.
  intros Ha. induction script as [|x script (bs & b & H1 & H2)].
  - exists [], []. split; [reflexivity|]. cbn [app blocks]. rewrite Ha.
    reflexivity.
  - cbn [app blocks]. rewrite H1, H2. destruct (suspends x).
    + exists ([] :: bs), b. split; reflexivity.
    + destruct bs as [|b0 bs].
      * exists [], (x :: b). split; reflexivity.
      * exists ((x :: b0) :: bs), b. split; reflexivity.
Qed.

(** The world after a list of blocks. *)
Definition run (bs : list (list Action)) (w : World) : World :=
  foldl (fun w b => commit b w) w bs.

Lemma commits_app (bs1 bs2 : list (list Action)) (w : World) :
  commits (bs1 ++ bs2) w = commits bs1 w ++ commits bs2 (run bs1 w).
Proof.
  revert w. induction bs1 as [|b bs1 IH]; intros w; [reflexivity|].
  cbn [app commits run foldl]. destruct b as [|a b].
  - apply IH.
  - cbn [app]. f_equal. apply IH.
Qed.

(** A property of the world that every action of the blocks keeps, and
    that the persist effect keeps, holds after every commit. *)
Lemma commits_invariant (I : World -> Prop) (P : Action -> Prop) :
  (forall a w, P a -> I w -> I (apply_action w a)) ->
  (forall w, I w -> I (persist_effect w)) ->
  forall bs w, Forall (Forall P) bs -> I w ->
    Forall I (commits bs w) /\ I (run bs w).
Proof.
  intros Hact Hper.
  assert (Hcommit : forall b w, Forall P b -> I w -> I (commit b w)).
  { intros b w Hb Hw. unfold commit.
    assert (Hfold : I (foldl apply_action w b)).
    { revert w Hw. induction Hb as [|a b Ha _ IH]; intros w Hw; [exact Hw|].
      cbn [foldl]. apply IH, Hact; assumption. }
    destruct (existsb sets_sessions b); [apply Hper|]; exact Hfold. }
  induction bs as [|b bs IH]; intros w Hbs Hw.
  - split; [constructor|exact Hw].
  - apply Forall_cons in Hbs as [Hb Hbs].
    specialize (Hcommit b w Hb Hw).
    destruct (IH (commit b w) Hbs Hcommit) as [H1 H2].
    cbn [commits run foldl]. destruct b as [|a b].
    + split; assumption.
    + split; [constructor; assumption|exact H2].
Qed.

(** ** The storage *)

(** The only key the component removes is its own. *)
Definition own_key_only (a : Action) : Prop :=
  match a with
  | RemoveItem key => key = STORAGE_SESSIONS_KEY
  | _ => True
  end.

Lemma keeps_storage_own_key (script : list Action) :
  keeps_storage script -> Forall own_key_only script.
Proof.
  unfold keeps_storage. induction script as [|a script IH]; intros H;
    [constructor|].
  cbn [existsb] in H. apply orb_false_iff in H as [Ha H].
  constructor; [|apply IH, H]. destruct a; try exact I. discriminate.
Qed.

Lemma handler_own_key (e : Event) (st : State) :
  Forall own_key_only (handler e st).
Proof.
  assert (He : e = ClearAll \/ e <> ClearAll)
    by (destruct e; (left; reflexivity) || (right; discriminate)).
  destruct He as [->|Hne].
  - repeat constructor.
  - apply keeps_storage_own_key, handler_keeps_storage, Hne.
Qed.

Lemma commit_other_key (k : jsstring) (b : list Action) (w : World) :
  k <> STORAGE_SESSIONS_KEY -> Forall own_key_only b ->
  localStorage (commit b w) !! k = localStorage w !! k.
Proof.
  intros Hk Hb.
  destruct (commits_invariant
              (fun w' => localStorage w' !! k = localStorage w !! k)
              own_key_only) with (bs := [b]) (w := w) as [_ H].
  - intros a w' Ha Hw'. rewrite <- Hw'. destruct a; try reflexivity.
    cbn [own_key_only] in Ha. subst key. cbn [apply_action localStorage].
    apply lookup_delete_ne. intros Heq. apply Hk. symmetry. exact Heq.
  - intros w' Hw'. rewrite <- Hw'. cbn [persist_effect localStorage].
    apply lookup_insert_ne. intros Heq. apply Hk. symmetry. exact Heq.
  - repeat constructor. exact Hb.
  - reflexivity.
  - exact H.
Qed.

Lemma load_effect_keeps_storage (raw : option jsstring) (us : list Action) :
  load_effect raw = Updates us -> keeps_storage us.
Proof.
  unfold load_effect. destruct raw as [raw|]; [|intros [= <-]; reflexivity].
  destruct (truthy raw); [|intros [= <-]; reflexivity].
  destruct (JSON_parse raw) as [j| |]; try discriminate.
  destruct (sessions_of_json j) as [loaded|];
    [|intros H; destruct (load_other_Updates _ _ H)].
  intros [= <-]. destruct loaded; reflexivity.
Qed.

Lemma mount_other_key (storage : gmap jsstring jsstring) (ws : list World)
    (k : jsstring) :
  k <> STORAGE_SESSIONS_KEY -> mount storage = Mounted ws ->
  Forall (fun w => localStorage w !! k = storage !! k) ws.
Proof.
  intros Hk. unfold mount.
  destruct (load_effect _) as [us|e|j us|j] eqn:Hload; try discriminate.
  intros [= <-].
  assert (H1 : localStorage (persist_effect (mkWorld initial storage)) !! k
               = storage !! k).
  { cbn [persist_effect localStorage]. apply lookup_insert_ne.
    intros Heq. apply Hk. symmetry. exact Heq. }
  constructor; [exact H1|].
  destruct us as [|u us]; constructor; [|constructor].
  rewrite commit_other_key; [exact H1|exact Hk|].
  apply keeps_storage_own_key, (load_effect_keeps_storage _ _ Hload).
Qed.

Lemma suspend_Forall (P : list (list Action) -> Prop) bs ts :
  P bs -> Forall P ts -> Forall P (suspend bs ts).
Proof.
  intros Hbs Hts. destruct bs as [|b bs]; [exact Hts|].
  cbn [suspend]. apply Forall_app. split; [exact Hts|].
  constructor; [exact Hbs|constructor].
Qed.

(** One step keeps the entries under the other keys, and leaves only
    handlers that will keep them. *)
Lemma step_other_key (k : jsstring) (p p' : Page) :
  k <> STORAGE_SESSIONS_KEY -> step p p' ->
  Forall (Forall (Forall own_key_only)) (tasks p) ->
  localStorage (world p') !! k = localStorage (world p) !! k /\
  Forall (Forall (Forall own_key_only)) (tasks p').
Proof.
  intros Hk Hstep Hts. destruct Hstep as [e p b bs Hen Hb|i p b bs Hi].
  - pose proof (blocks_Forall _ _ (handler_own_key e (state (world p)))) as H.
    rewrite Hb in H. apply Forall_cons in H as [H1 H2].
    split; [apply commit_other_key; assumption|].
    apply suspend_Forall; assumption.
  - assert (H : Forall (Forall own_key_only) (b :: bs)).
    { rewrite Forall_forall in Hts. apply Hts.
      apply list_elem_of_lookup. exists i. exact Hi. }
    apply Forall_cons in H as [H1 H2].
    split; [apply commit_other_key; assumption|].
    apply suspend_Forall; [exact H2|]. apply Forall_delete. exact Hts.
Qed.

(** X1: whatever the user does after startup, in whatever order the
    events and the suspended handlers run, every entry of the storage
    under another key than [STORAGE_SESSIONS_KEY] is the entry it was
    before startup (present with the same text, or absent). *)
Theorem other_keys_untouched (storage : gmap jsstring jsstring)
    (ws : list World) (w : World) (p : Page) (k : jsstring) :
  mount storage = Mounted ws -> last ws = Some w ->
  rtc step (mkPage w []) p ->
  k <> STORAGE_SESSIONS_KEY ->
  localStorage (world p) !! k = storage !! k.
Proof.
  intros Hm Hlast Hsteps Hk.
  assert (Hw : localStorage w !! k = storage !! k).
  { pose proof (mount_other_key storage ws k Hk Hm) as H.
    rewrite Forall_forall in H. apply H, last_Some_elem_of, Hlast. }
  cut (localStorage (world p) !! k = storage !! k /\
       Forall (Forall (Forall own_key_only)) (tasks p)); [intros [H _]; exact H|].
  refine (rtc_ind_r
    (fun p => localStorage (world p) !! k = storage !! k /\
              Forall (Forall (Forall own_key_only)) (tasks p))
    (mkPage w []) _ _ p Hsteps).
  - split; [exact Hw|constructor].
  - intros p1 p2 _ Hstep [IH1 IH2].
    destruct (step_other_key k p1 p2 Hk Hstep IH2) as [H1 H2].
    split; [rewrite H1; exact IH1|exact H2].
Qed.

Definition storage_other : gmap jsstring jsstring :=
  {[ str "theme" := str "dark" ]}.

Lemma page_other_steps :
  rtc step (mkPage (persist_effect (mkWorld initial storage_other)) [])
    (mkPage (commit clearAllSessions
               (persist_effect (mkWorld initial storage_other))) []).
Proof.
  apply rtc_once.
  exact (step_event ClearAll
           (mkPage (persist_effect (mkWorld initial storage_other)) [])
           clearAllSessions [] I eq_refl).
Defined.

Lemma other_keys_untouched_witness :
  localStorage (commit clearAllSessions
                  (persist_effect (mkWorld initial storage_other)))
    !! str "theme" = Some (str "dark").
Proof.
  apply (other_keys_untouched storage_other
           [persist_effect (mkWorld initial storage_other)] _ _ (str "theme")
           eq_refl eq_refl page_other_steps).
  discriminate.
Defined.

(** X2: a reload of the page at any moment the user can reach (also in the
    middle of an exchange) shows, after the two commits of startup, the
    collection as it was at that moment, session by session and message by
    message; the active session is the first one again (none for the empty
    collection), the input is empty and [loading] is false. *)
Theorem reload_restores (p : Page) :
  reachable p ->
  exists w1 w2,
    mount (localStorage (world p)) = Mounted [w1; w2] /\
    state w2
    = mkState (sessions (state (world p)))
              (head (ids (sessions (state (world p))))) [] false.
Proof.
  intros Hp. destruct (reachable_page_ok p Hp) as [Hper _].
  destruct (mount_installed (localStorage (world p))
              (stringify (json_of_sessions (sessions (state (world p)))))
              (sessions (state (world p))) Hper
              (JSON_parse_stringify_sessions _))
    as (w1 & w2 & Hm & _ & H2 & _).
  exists w1, w2. split; assumption.
Qed.

Lemma reload_restores_witness :
  exists w1 w2,
    mount (localStorage (world page_chat)) = Mounted [w1; w2] /\
    state w2
    = mkState [ChatSession.mk (str "5") (str "a") []] (Some (str "5")) [] false.
Proof.
  apply (reload_restores page_chat).
  apply (reachable_step page_mounted).
  - exact (reachable_mount ∅ [persist_effect (mkWorld initial ∅)] _
             eq_refl eq_refl).
  - exact (step_event (NewChat 5 (str "a")) page_mounted
             (startNewSession 5 (str "a")) [] I eq_refl).
Defined.

(** ** The active id *)

(** The active id, when there is one, is the id of a session of the
    collection. *)
Definition active_valid (st : State) : Prop :=
  forall i, currentSessionId st = Some i -> i ∈ ids (sessions st).

(** An action that changes neither the ids of the collection nor the
    active id. *)
Definition keeps_selection (a : Action) : Prop :=
  match a with
  | SetSessions f => forall ss, ids (f ss) = ids ss
  | SetCurrentSessionId _ => False
  | _ => True
  end.

Lemma ids_in_session cur f (ss : list ChatSession.t) :
  ids (in_session cur f ss) = ids ss.
Proof.
  unfold ids, in_session. rewrite <- list_fmap_compose.
  apply list_fmap_ext. intros _ s _. cbn [compose].
  destruct (decide _); reflexivity.
Qed.

Lemma typing_keeps_selection cur botId (displayed remaining : jsstring) :
  Forall keeps_selection (typing cur botId displayed remaining).
Proof.
  revert displayed. induction remaining as [|c rest IH]; intros displayed;
    [constructor|].
  cbn [typing]. constructor; [intros ss; apply ids_in_session|].
  constructor; [exact I|apply IH].
Qed.

Lemma on_outcome_keeps_selection cur botId (o : FetchOutcome) :
  Forall keeps_selection (on_outcome cur botId o).
Proof.
  assert (Herr : forall err, Forall keeps_selection (on_error cur botId err)).
  { intros err. constructor; [intros ss; apply ids_in_session|constructor]. }
  unfold on_outcome. destruct o as [err|status body]; [apply Herr|].
  destruct (ok status); [|apply Herr].
  constructor; [exact I|]. destruct body as [err|data]; [apply Herr|].
  apply Forall_app. split; [apply typing_keeps_selection|].
  constructor; [intros ss; apply ids_in_session|constructor].
Qed.

Lemma sendMessage_keeps_selection (st : State) (env : SendEnv) :
  Forall keeps_selection (sendMessage st env).
Proof.
  unfold sendMessage. destruct (_ || _); [constructor|].
  repeat first
    [ apply Forall_app; split
    | apply on_outcome_keeps_selection
    | constructor; [first [exact I | intros ss; apply ids_in_session]|]
    | constructor ].
Qed.

Lemma commit_keeps_selection (b : list Action) (w : World) :
  Forall keeps_selection b ->
  ids (sessions (state (commit b w))) = ids (sessions (state w)) /\
  currentSessionId (state (commit b w)) = currentSessionId (state w).
Proof.
  intros Hb.
  destruct (commits_invariant
              (fun w' => ids (sessions (state w')) = ids (sessions (state w)) /\
                         currentSessionId (state w') = currentSessionId (state w))
              keeps_selection) with (bs := [b]) (w := w) as [_ H].
  - intros a w' Ha [H1 H2]. destruct a; try contradiction; try (split; assumption).
    cbn [apply_action state sessions currentSessionId].
    split; [rewrite Ha; exact H1|exact H2].
  - intros w' H. exact H.
  - repeat constructor. exact Hb.
  - split; reflexivity.
  - exact H.
Qed.

Lemma ids_filter_other (i j : jsstring) (ss : list ChatSession.t) :
  j <> i -> j ∈ ids ss ->
  j ∈ ids (filter (fun s => ChatSession.id s <> i) ss).
Proof.
  unfold ids. intros Hne Hin.
  apply list_elem_of_fmap in Hin as (s & -> & Hin).
  apply list_elem_of_fmap_2, list_elem_of_filter. split; assumption.
Qed.

(** X3: the active id references a session of the collection after both
    commits of startup; the commit of every event keeps it so (the
    deletion of the active session provided the first session of the list
    is another one, with a non-empty id), and so does every block that a
    handler runs after an await. *)
Theorem active_id_kept :
  (forall storage ws, mount storage = Mounted ws ->
     Forall (fun w => active_valid (state w)) ws) /\
  (forall e w b bs,
     enabled e (state w) ->
     blocks (handler e (state w)) = b :: bs ->
     active_valid (state w) ->
     (forall i, e = Delete i -> currentSessionId (state w) = Some i ->
        exists s0 rest, sessions (state w) = s0 :: rest /\
          ChatSession.id s0 <> i /\ truthy (ChatSession.id s0) = true) ->
     active_valid (state (commit b w)) /\ Forall (Forall keeps_selection) bs) /\
  (forall b w, Forall keeps_selection b -> active_valid (state w) ->
     active_valid (state (commit b w))).
Proof.
  assert (Hkeep : forall b w, Forall keeps_selection b ->
            active_valid (state w) -> active_valid (state (commit b w))).
  { intros b w Hb Hv i Hi.
    destruct (commit_keeps_selection b w Hb) as [H1 H2].
    rewrite H1. apply Hv. rewrite <- H2. exact Hi. }
  split; [|split; [|exact Hkeep]].
  - intros storage ws. unfold mount, load_effect.
    assert (H0 : active_valid (state (persist_effect (mkWorld initial storage))))
      by (intros i [=]).
    destruct (storage !! STORAGE_SESSIONS_KEY) as [raw|];
      [|intros [= <-]; repeat constructor; exact H0].
    destruct (truthy raw); [|intros [= <-]; repeat constructor; exact H0].
    destruct (JSON_parse raw) as [j| |]; try discriminate.
    destruct (sessions_of_json j) as [loaded|];
      [|destruct (load_other j) as [us|e|j' us|j'] eqn:Hother;
        [destruct (load_other_Updates _ _ Hother)|discriminate..]].
    intros [= <-]. constructor; [exact H0|]. constructor; [|constructor].
    rewrite commit_sessions. destruct loaded as [|s0 loaded]; intros i [= <-].
    left.
  - intros e w b bs Hen Hb Hv Hdel.
    destruct e as [now iso| |i|i|v|env]; cbn [handler] in Hb.
    + injection Hb as <- <-. split; [|constructor].
      rewrite commit_sessions. intros i [= <-]. left.
    + injection Hb as <- <-. split; [|constructor].
      rewrite commit_sessions. intros i [=].
    + injection Hb as <- <-. split; [|constructor].
      rewrite commit_sessions. intros i' [= <-]. exact Hen.
    + unfold deleteSession in Hb.
      destruct (decide (currentSessionId (state w) = Some i)) as [Hcur|Hcur];
        injection Hb as <- <-; (split; [|constructor]);
        rewrite commit_sessions; cbn [foldl apply_action state sessions
          currentSessionId]; intros j Hj.
      * destruct (Hdel i eq_refl Hcur) as (s0 & rest & Hss & Hne & Htr).
        rewrite Hss in Hj |- *. cbn [first_id_or_null] in Hj.
        rewrite Htr in Hj. injection Hj as <-.
        rewrite filter_cons_True by exact Hne. left.
      * apply ids_filter_other; [|apply Hv, Hj].
        intros ->. apply Hcur. exact Hj.
    + injection Hb as <- <-. split; [|constructor].
      rewrite commit_sessions. exact Hv.
    + pose proof (blocks_Forall _ _
        (sendMessage_keeps_selection (state w) env)) as H.
      rewrite Hb in H. apply Forall_cons in H as [H1 H2].
      split; [apply Hkeep; assumption|exact H2].
Qed.

Definition world_3 : World :=
  mkWorld (mkState [session_2; session_1] (Some (str "1")) [] false) ∅.

Lemma session_1_listed : str "1" ∈ ids [session_2; session_1].
Proof. right. left. Qed.

Lemma active_id_kept_witness :
  active_valid (state (commit (deleteSession (state world_3) (str "1")) world_3)).
Proof.
  refine (proj1 (proj1 (proj2 active_id_kept) (Delete (str "1")) world_3
            (deleteSession (state world_3) (str "1")) []
            session_1_listed eq_refl _ _)).
  - intros i [= <-]. exact session_1_listed.
  - intros i [= <-] _. exists session_2, [session_1].
    split; [reflexivity|]. split; [discriminate|reflexivity].
Defined.

(** ** What an exchange leaves alone *)

(** Whether [sendMessage] passes its guard. *)
Lemma sendMessage_cases (st : State) (env : SendEnv) :
  sendMessage st env = [] \/
  exists cur, truthy (trim (input st)) = true /\
    currentSessionId st = Some cur /\ truthy cur = true.
Proof.
  unfold sendMessage.
  destruct (truthy (trim (input st))); [|left; reflexivity].
  destruct (currentSessionId st) as [cur|]; [|left; reflexivity].
  cbn [from_option negb orb]. destruct (truthy cur) eqn:Hc; [|left; reflexivity].
  right. exists cur. repeat split. exact Hc.
Qed.

(** The ids and creation times of the collection, in order. *)
Definition outline (ss : list ChatSession.t) : list (jsstring * jsstring) :=
  (fun s => (ChatSession.id s, ChatSession.createdAt s)) <$> ss.

(** The number of messages of each session, in order. *)
Definition counts (ss : list ChatSession.t) : list nat :=
  (fun s => length (ChatSession.messages s)) <$> ss.

(** An update of the messages that are there: it changes no session id, no
    creation time and no number of messages, and does not touch the active
    id. *)
Definition steady (a : Action) : Prop :=
  match a with
  | SetSessions f =>
      forall ss, outline (f ss) = outline ss /\ counts (f ss) = counts ss
  | SetCurrentSessionId _ => False
  | _ => True
  end.

Lemma outline_in_session cur f (ss : list ChatSession.t) :
  outline (in_session cur f ss) = outline ss.
Proof.
  unfold outline, in_session. rewrite <- list_fmap_compose.
  apply list_fmap_ext. intros _ s _. cbn [compose].
  destruct (decide _); reflexivity.
Qed.

Lemma counts_in_session_patch cur botId g (ss : list ChatSession.t) :
  counts (in_session cur (patch botId g) ss) = counts ss.
Proof.
  unfold counts, in_session. rewrite <- list_fmap_compose.
  apply list_fmap_ext. intros _ s _. cbn [compose].
  destruct (decide _); [|reflexivity].
  cbn [ChatSession.with_messages ChatSession.messages].
  unfold patch. apply length_fmap.
Qed.

Lemma counts_in_session_grow cur f (n : nat) (ss : list ChatSession.t) :
  (forall l, length (f l) = (length l + n)%nat) ->
  counts (in_session cur f ss)
  = (fun s => length (ChatSession.messages s)
              + if decide (Some (ChatSession.id s) = cur) then n else 0)%nat
    <$> ss.
Proof.
  intros Hf. unfold counts, in_session. rewrite <- list_fmap_compose.
  apply list_fmap_ext. intros _ s _. cbn [compose].
  destruct (decide _); [|lia].
  cbn [ChatSession.with_messages ChatSession.messages]. apply Hf.
Qed.

Lemma in_session_in_session cur f g (ss : list ChatSession.t) :
  in_session cur g (in_session cur f ss) = in_session cur (fun l => g (f l)) ss.
Proof.
  unfold in_session. rewrite <- list_fmap_compose.
  apply list_fmap_ext. intros _ s _. cbn [compose].
  destruct (decide (Some (ChatSession.id s) = cur)) as [Heq|Hne].
  - cbn [ChatSession.with_messages ChatSession.id ChatSession.messages
         ChatSession.createdAt].
    rewrite decide_True by exact Heq. reflexivity.
  - rewrite decide_False by exact Hne. reflexivity.
Qed.

Lemma typing_steady cur botId (displayed remaining : jsstring) :
  Forall steady (typing cur botId displayed remaining).
Proof.
  revert displayed. induction remaining as [|c rest IH]; intros displayed;
    [constructor|].
  cbn [typing]. constructor.
  - intros ss. split; [apply outline_in_session|apply counts_in_session_patch].
  - constructor; [exact I|apply IH].
Qed.

Lemma on_outcome_steady cur botId (o : FetchOutcome) :
  Forall steady (on_outcome cur botId o).
Proof.
  assert (Hset : forall g,
    steady (SetSessions (in_session cur (patch botId g)))).
  { intros g ss. split; [apply outline_in_session|apply counts_in_session_patch]. }
  assert (Herr : forall err, Forall steady (on_error cur botId err)).
  { intros err. constructor; [apply Hset|constructor]. }
  unfold on_outcome. destruct o as [err|status body]; [apply Herr|].
  destruct (ok status); [|apply Herr].
  constructor; [exact I|]. destruct body as [err|data]; [apply Herr|].
  apply Forall_app. split; [apply typing_steady|].
  constructor; [apply Hset|constructor].
Qed.

(** X4: at every commit of an exchange the collection has the sessions it
    had when the question was sent, in the same order, with the same ids
    and creation times; the active id is the same; every session whose id
    is the active id has exactly two messages more than it had (the
    question and the placeholder), every other session as many as it
    had. *)
Theorem exchange_frame (st : State) (env : SendEnv)
    (storage : gmap jsstring jsstring) :
  Forall
    (fun w' =>
       outline (sessions (state w')) = outline (sessions st) /\
       currentSessionId (state w') = currentSessionId st /\
       counts (sessions (state w'))
       = (fun s => length (ChatSession.messages s)
                   + if decide (Some (ChatSession.id s) = currentSessionId st)
                     then 2 else 0)%nat <$> sessions st)
    (commits (blocks (sendMessage st env)) (mkWorld st storage)).
Proof.
  destruct (sendMessage_cases st env) as [->|(cur & Hin & Hcur & Htr)];
    [constructor|].
  rewrite (sendMessage_script st env cur Hin Hcur Htr).
  rewrite blocks_prefix by reflexivity.
  cbn [addMessage app commits].
  set (w0 := commit _ (mkWorld st storage)).
  set (I := fun w' : World =>
       outline (sessions (state w')) = outline (sessions st) /\
       currentSessionId (state w') = currentSessionId st /\
       counts (sessions (state w'))
       = (fun s => length (ChatSession.messages s)
                   + if decide (Some (ChatSession.id s) = currentSessionId st)
                     then 2 else 0)%nat <$> sessions st).
  assert (H0 : I w0).
  { unfold I, w0. rewrite commit_sessions.
    cbn [addMessage app foldl apply_action state sessions currentSessionId
         input loading localStorage].
    rewrite in_session_in_session. split; [apply outline_in_session|].
    split; [reflexivity|].
    apply counts_in_session_grow. intros l. rewrite !length_app.
    cbn [length]. lia. }
  constructor; [exact H0|].
  apply (commits_invariant I steady).
  - intros a w' Ha (H1 & H2 & H3). destruct a; try contradiction;
      try (repeat split; assumption).
    destruct (Ha (sessions (state w'))) as [Ho Hc].
    unfold I. cbn [apply_action state sessions currentSessionId].
    rewrite Ho, Hc. repeat split; assumption.
  - intros w' H. exact H.
  - apply blocks_Forall, Forall_app. split; [apply on_outcome_steady|].
    repeat constructor.
  - exact H0.
Qed.

(** ** The [loading] flag *)

(** An action that touches neither [input] nor [loading]. *)
Definition calm (a : Action) : Prop :=
  match a with
  | SetInput _ | SetLoading _ => False
  | _ => True
  end.

Lemma typing_calm cur botId (displayed remaining : jsstring) :
  Forall calm (typing cur botId displayed remaining).
Proof.
  revert displayed. induction remaining as [|c rest IH]; intros displayed;
    [constructor|].
  cbn [typing]. repeat (constructor; [exact I|]). apply IH.
Qed.

Lemma on_outcome_calm cur botId (o : FetchOutcome) :
  Forall calm (on_outcome cur botId o).
Proof.
  unfold on_outcome. destruct o as [err|status body]; [repeat constructor|].
  destruct (ok status); [|repeat constructor].
  constructor; [exact I|]. destruct body as [err|data]; [repeat constructor|].
  apply Forall_app. split; [apply typing_calm|repeat constructor].
Qed.

Lemma foldl_calm (b : list Action) (w : World) :
  Forall calm b ->
  input (state (foldl apply_action w b)) = input (state w) /\
  loading (state (foldl apply_action w b)) = loading (state w).
Proof.
  intros Hb. revert w. induction Hb as [|a b Ha _ IH]; intros w;
    [split; reflexivity|].
  cbn [foldl]. destruct (IH (apply_action w a)) as [-> ->].
  destruct a; try contradiction; split; reflexivity.
Qed.

(** X5: an exchange that passes the guard of [sendMessage] commits at
    least twice; at every commit but the last one [loading] is true and
    the input is empty, so that neither the textarea nor the Send button
    accepts anything; at the last commit [loading] is false and the input
    is still empty. *)
Theorem exchange_loading (st : State) (env : SendEnv)
    (storage : gmap jsstring jsstring) (cur : jsstring) :
  truthy (trim (input st)) = true ->
  currentSessionId st = Some cur ->
  truthy cur = true ->
  exists ws w_last,
    commits (blocks (sendMessage st env)) (mkWorld st storage)
    = ws ++ [w_last] /\
    ws <> [] /\
    Forall (fun w' => loading (state w') = true /\ input (state w') = [] /\
                      (forall env', ~ enabled (Send env') (state w')) /\
                      (forall v, ~ enabled (Edit v) (state w'))) ws /\
    loading (state w_last) = false /\ input (state w_last) = [].
Proof.
  intros Hin Hcur Htr.
  rewrite (sendMessage_script st env cur Hin Hcur Htr).
  rewrite blocks_prefix by reflexivity.
  destruct (blocks_snoc (on_outcome (Some cur) (Message.id (botMsg env))
              (outcome env)) (SetLoading false) eq_refl)
    as (bs & b & Hbs & ->).
  pose proof (blocks_Forall calm _
    (on_outcome_calm (Some cur) (Message.id (botMsg env)) (outcome env))) as Hc.
  rewrite Hbs in Hc. apply Forall_app in Hc as [Hcbs Hcb].
  apply Forall_cons in Hcb as [Hcb _].
  cbn [addMessage app commits].
  set (w0 := commit _ (mkWorld st storage)).
  set (J := fun w' : World => loading (state w') = true /\ input (state w') = []).
  assert (H0 : J w0).
  { unfold J, w0. rewrite commit_sessions. split; reflexivity. }
  destruct (commits_invariant J calm) with (bs := bs) (w := w0) as [Hws Hrun].
  - intros a w' Ha [H1 H2]. unfold J.
    destruct a; try contradiction; split; assumption.
  - intros w' H. exact H.
  - exact Hcbs.
  - exact H0.
  - exists (w0 :: commits bs w0), (commit (b ++ [SetLoading false]) (run bs w0)).
    split; [|split; [discriminate|split]].
    + rewrite commits_app. cbn [app]. do 2 f_equal.
      destruct b; reflexivity.
    + assert (HJ : forall w', J w' ->
        loading (state w') = true /\ input (state w') = [] /\
        (forall env', ~ enabled (Send env') (state w')) /\
        (forall v, ~ enabled (Edit v) (state w'))).
      { intros w' [H1 H2]. repeat split; try assumption;
          intros x Hx; cbn [enabled] in Hx; congruence. }
      constructor; [apply HJ, H0|].
      eapply Forall_impl; [exact Hws|exact HJ].
    + rewrite !commit_sessions, foldl_app. cbn [foldl apply_action state
        loading input].
      destruct (foldl_calm b (run bs w0) Hcb) as [-> _].
      split; [reflexivity|apply Hrun].
Qed.

Lemma exchange_loading_witness :
  exists ws w_last,
    commits (blocks (sendMessage st_asking env_failed)) (mkWorld st_asking ∅)
    = ws ++ [w_last] /\
    ws <> [] /\
    Forall (fun w' => loading (state w') = true /\ input (state w') = [] /\
                      (forall env', ~ enabled (Send env') (state w')) /\
                      (forall v, ~ enabled (Edit v) (state w'))) ws /\
    loading (state w_last) = false /\ input (state w_last) = [].
Proof.
  exact (exchange_loading st_asking env_failed ∅ (str "1")
           eq_refl eq_refl eq_refl).
Defined.

(** ** The request *)

Lemma plain_question (text : jsstring) :
  plain (JObj [(str "question", JStr text)]).
Proof.
  constructor.
  - apply (bool_decide_unpack _). vm_compute. reflexivity.
  - repeat constructor.
Qed.

(** X6: an exchange that passes the guard of [sendMessage] sends one
    request and no other: a POST to the backend origin followed by
    [/ask], whose body is JSON text that parses to the object with the one
    property [question], holding the input without the white space at its
    ends, whatever its characters. *)
Theorem request_sent (st : State) (env : SendEnv) (cur : jsstring) :
  truthy (trim (input st)) = true ->
  currentSessionId st = Some cur ->
  truthy cur = true ->
  List.filter is_fetch (sendMessage st env)
  = [Fetch (backend env ++ str "/ask") (ask_body (trim (input st)))] /\
  JSON_parse (ask_body (trim (input st)))
  = Ok (JObj [(str "question", JStr (trim (input st)))]).
Proof.
  intros Hin Hcur Htr. split.
  - rewrite (sendMessage_script st env cur Hin Hcur Htr).
    rewrite List.filter_app. cbn [List.filter is_fetch addMessage app].
    rewrite List.filter_app, on_outcome_no_fetch. reflexivity.
  - apply JSON_parse_stringify, plain_question.
Qed.

Lemma request_sent_witness :
  List.filter is_fetch (sendMessage st_asking env_failed)
  = [Fetch (str "http://127.0.0.1:8000/ask") (ask_body (str "hi"))] /\
  JSON_parse (ask_body (str "hi")) = Ok (JObj [(str "question", JStr (str "hi"))]).
Proof.
  exact (request_sent st_asking env_failed (str "1") eq_refl eq_refl eq_refl).
Defined.

(** ** A question sent while the active id references no session *)

(** An update that changes nothing in a collection without the session
    [cur]. *)
Definition inert (cur : jsstring) (a : Action) : Prop :=
  match a with
  | SetSessions f => forall ss, cur ∉ ids ss -> f ss = ss
  | SetCurrentSessionId _ => False
  | _ => True
  end.

Lemma typing_inert cur botId (displayed remaining : jsstring) :
  Forall (inert cur) (typing (Some cur) botId displayed remaining).
Proof.
  revert displayed. induction remaining as [|c rest IH]; intros displayed;
    [constructor|].
  cbn [typing]. constructor; [intros ss; apply in_session_other|].
  constructor; [exact I|apply IH].
Qed.

Lemma on_outcome_inert cur botId (o : FetchOutcome) :
  Forall (inert cur) (on_outcome (Some cur) botId o).
Proof.
  assert (Herr : forall err, Forall (inert cur) (on_error (Some cur) botId err)).
  { intros err. constructor; [intros ss; apply in_session_other|constructor]. }
  unfold on_outcome. destruct o as [err|status body]; [apply Herr|].
  destruct (ok status); [|apply Herr].
  constructor; [exact I|]. destruct body as [err|data]; [apply Herr|].
  apply Forall_app. split; [apply typing_inert|].
  constructor; [intros ss; apply in_session_other|constructor].
Qed.

Lemma find_session_None (cur : jsstring) (ss : list ChatSession.t) :
  cur ∉ ids ss ->
  find (fun s => bool_decide (Some (ChatSession.id s) = Some cur)) ss = None.
Proof.
  unfold ids. induction ss as [|s ss IH]; intros Hn; [reflexivity|].
  rewrite fmap_cons in Hn. apply not_elem_of_cons in Hn as [Hne Hn].
  cbn [find]. rewrite bool_decide_eq_false_2; [apply IH, Hn|].
  intros [= H]. apply Hne. symmetry. exact H.
Qed.

(** X7: when the active id references no session of the collection (as it
    does after the active first session was deleted), a question that
    passes the guard of [sendMessage] is sent to the backend, and nothing
    of the exchange is ever shown or stored: at every one of its commits
    the collection is the one it was and no session is the current one. *)
Theorem dangling_question_lost (st : State) (env : SendEnv)
    (storage : gmap jsstring jsstring) (cur : jsstring) :
  truthy (trim (input st)) = true ->
  currentSessionId st = Some cur ->
  truthy cur = true ->
  cur ∉ ids (sessions st) ->
  Exists (fun a => is_fetch a = true) (sendMessage st env) /\
  Forall (fun w' => sessions (state w') = sessions st /\
                    currentSession (state w') = None)
         (commits (blocks (sendMessage st env)) (mkWorld st storage)).
Proof.
  intros Hin Hcur Htr Hdangling.
  rewrite (sendMessage_script st env cur Hin Hcur Htr). split.
  - apply Exists_app. right. left. reflexivity.
  - set (Inv := fun w' : World =>
      sessions (state w') = sessions st /\ currentSessionId (state w') = Some cur).
    eapply Forall_impl.
    + apply (commits_invariant Inv (inert cur)).
      * intros a w' Ha [H1 H2]. unfold Inv.
        destruct a; try contradiction; try (split; assumption).
        cbn [apply_action state sessions currentSessionId].
        split; [|exact H2]. rewrite Ha; [exact H1|]. rewrite H1. exact Hdangling.
      * intros w' H. exact H.
      * apply blocks_Forall. cbn [addMessage app]. rewrite Hcur.
        repeat (constructor;
                [first [exact I | intros ss; apply in_session_other]|]).
        apply Forall_app. split; [apply on_outcome_inert|repeat constructor].
      * split; [reflexivity|exact Hcur].
    + intros w' [H1 H2]. split; [exact H1|].
      unfold currentSession. rewrite H1, H2. apply find_session_None, Hdangling.
Qed.

Definition st_dangling : State :=
  mkState [session_1] (Some (str "2")) (str "hi") false.

Lemma session_2_gone : str "2" ∉ ids (sessions st_dangling).
Proof.
  apply not_elem_of_cons. split; [discriminate|apply not_elem_of_nil].
Qed.

Lemma dangling_question_lost_witness :
  Exists (fun a => is_fetch a = true) (sendMessage st_dangling env_answered) /\
  Forall (fun w' => sessions (state w') = [session_1] /\
                    currentSession (state w') = None)
         (commits (blocks (sendMessage st_dangling env_answered))
                  (mkWorld st_dangling ∅)).
Proof.
  exact (dangling_question_lost st_dangling env_answered ∅ (str "2")
           eq_refl eq_refl eq_refl session_2_gone).
Defined.

(** ** The keyboard *)

(** What [handleKeyDown] reads of the event. *)
Record KeyboardEvent : Type := mkKeyboardEvent {
  key : jsstring;
  shiftKey : bool;
}.

(** [handleKeyDown(e)]: whether [e.preventDefault()] was called, and what
    was issued. *)
Definition handleKeyDown (st : State) (env : SendEnv) (e : KeyboardEvent)
  : bool * list Action :=
  if bool_decide (key e = str "Enter") && negb (shiftKey e) then
    (true, if negb (loading st) then sendMessage st env else [])
  else (false, []).

Lemma sendMessage_nonempty (st : State) (env : SendEnv) :
  sendMessage st env <> [] <->
  truthy (trim (input st)) = true /\
  exists cur, currentSessionId st = Some cur /\ truthy cur = true.
Proof.
  split.
  - intros Hne. destruct (sendMessage_cases st env) as [H|(cur & H1 & H2 & H3)];
      [contradiction|]. split; [exact H1|]. exists cur. split; assumption.
  - intros (H1 & cur & H2 & H3). rewrite (sendMessage_script st env cur H1 H2 H3).
    discriminate.
Qed.

(** X8: a key press suppresses the default action of the key exactly when
    the key is Enter without Shift, also when nothing is sent; it issues
    something exactly when, moreover, [loading] is false, the input holds
    more than white space and the active id is set (and not empty); and
    then what it issues contains exactly one request. *)
Theorem handleKeyDown_sends (st : State) (env : SendEnv) (e : KeyboardEvent) :
  ((handleKeyDown st env e).1 = true <->
   key e = str "Enter" /\ shiftKey e = false) /\
  ((handleKeyDown st env e).2 <> [] <->
   key e = str "Enter" /\ shiftKey e = false /\ loading st = false /\
   truthy (trim (input st)) = true /\
   exists cur, currentSessionId st = Some cur /\ truthy cur = true) /\
  ((handleKeyDown st env e).2 <> [] ->
   length (List.filter is_fetch (handleKeyDown st env e).2) = 1%nat).
Proof.
  assert (Hone : sendMessage st env <> [] ->
            length (List.filter is_fetch (sendMessage st env)) = 1%nat).
  { intros H. apply sendMessage_nonempty in H as (H1 & cur & H2 & H3).
    rewrite (sendMessage_script st env cur H1 H2 H3).
    rewrite List.filter_app. cbn [List.filter is_fetch addMessage app].
    rewrite List.filter_app, on_outcome_no_fetch. reflexivity. }
  pose proof (sendMessage_nonempty st env) as Hsend.
  unfold handleKeyDown.
  destruct (decide (key e = str "Enter")) as [Hk|Hk];
    [rewrite bool_decide_eq_true_2 by exact Hk
    |rewrite bool_decide_eq_false_2 by exact Hk];
    destruct (shiftKey e), (loading st); cbn [negb andb fst snd];
    (split; [|split]); try exact Hone; intuition congruence.
Qed.

Lemma handleKeyDown_sends_witness :
  length (List.filter is_fetch
            (handleKeyDown st_asking env_failed
               (mkKeyboardEvent (str "Enter") false)).2) = 1%nat
  /\ (handleKeyDown st_asking env_failed
        (mkKeyboardEvent (str "Enter") true)).1 <> true.
Proof.
  split.
  - apply (proj2 (proj2 (handleKeyDown_sends st_asking env_failed
              (mkKeyboardEvent (str "Enter") false)))).
    discriminate.
  - intros H.
    apply (proj1 (proj1 (handleKeyDown_sends st_asking env_failed
              (mkKeyboardEvent (str "Enter") true)))) in H.
    destruct H as [_ H]. discriminate H.
Defined.

(** ** The text of the question *)

Lemma trim_start_split (s : jsstring) :
  exists l, s = l ++ trim_start s /\ Forall (fun c => is_js_space c = true) l /\
    (forall c, head (trim_start s) = Some c -> is_js_space c = false).
Proof.
  induction s as [|c s (l & Hs & Hl & Hh)].
  - exists []. repeat split; [constructor|intros c [=]].
  - cbn [trim_start]. destruct (is_js_space c) eqn:Hc.
    + exists (c :: l). split; [cbn [app]; f_equal; exact Hs|].
      split; [constructor; assumption|exact Hh].
    + exists []. split; [reflexivity|]. split; [constructor|].
      intros c' [= <-]. exact Hc.
Qed.

Lemma trim_start_id (s : jsstring) :
  (forall c, head s = Some c -> is_js_space c = false) -> trim_start s = s.
Proof.
  destruct s as [|c s]; [reflexivity|]. intros H. cbn [trim_start].
  rewrite (H c eq_refl). reflexivity.
Qed.

Lemma head_rev {A : Type} (l : list A) : head (rev l) = last l.
Proof.
  induction l as [|x l IH] using rev_ind; [reflexivity|].
  rewrite rev_app_distr, last_snoc. reflexivity.
Qed.

(** What [trim] leaves of a string that is not all white space. *)
Lemma trim_spec (s : jsstring) :
  truthy (trim s) = true ->
  (exists l r, s = l ++ trim s ++ r /\
     Forall (fun c => is_js_space c = true) l /\
     Forall (fun c => is_js_space c = true) r) /\
  trim s <> [] /\
  (forall c, head (trim s) = Some c -> is_js_space c = false) /\
  (forall c, last (trim s) = Some c -> is_js_space c = false) /\
  trim (trim s) = trim s.
Proof.
  intros Hin.
  destruct (trim_start_split s) as (l & Hs & Hl & Hh).
  destruct (trim_start_split (rev (trim_start s))) as (r' & Hr & Hr' & Hh').
  fold (trim s) in *.
  assert (Ha : trim_start s = trim s ++ rev r').
  { rewrite <- (rev_involutive (trim_start s)), Hr at 1.
    rewrite rev_app_distr. unfold trim. reflexivity. }
  assert (Hhead : forall c, head (trim s) = Some c -> is_js_space c = false).
  { intros c Hc. apply Hh. rewrite Ha.
    destruct (trim s); [discriminate|exact Hc]. }
  assert (Hlast : forall c, last (trim s) = Some c -> is_js_space c = false).
  { intros c Hc. apply Hh'. unfold trim in Hc.
    rewrite <- head_rev, rev_involutive in Hc. exact Hc. }
  split; [|split; [|split; [|split]]].
  - exists l, (rev r'). split; [rewrite <- Ha; exact Hs|].
    split; [exact Hl|]. rewrite Forall_forall in Hr' |- *.
    intros c Hc. apply Hr'. apply list_elem_of_In. apply list_elem_of_In in Hc.
    apply in_rev. exact Hc.
  - intros H. rewrite H in Hin. discriminate.
  - exact Hhead.
  - exact Hlast.
  - unfold trim at 1. rewrite (trim_start_id (trim s)) by exact Hhead.
    rewrite trim_start_id; [apply rev_involutive|].
    intros c Hc. rewrite head_rev in Hc. apply Hlast, Hc.
Qed.

(** X9: when [sendMessage] passes its guard, the input is white space,
    then a text, then white space, where the text is not empty and
    neither begins nor ends with white space; this text is the text of
    the question that the first commit of the call shows at the end of
    the sessions with the active id, followed by the placeholder, and it
    is the question of the one request that is sent. *)
Theorem userMsg_trimmed (st : State) (env : SendEnv)
    (storage : gmap jsstring jsstring) (cur : jsstring) :
  truthy (trim (input st)) = true ->
  currentSessionId st = Some cur -> truthy cur = true ->
  exists l t r,
    input st = l ++ t ++ r /\
    Forall (fun c => is_js_space c = true) l /\
    Forall (fun c => is_js_space c = true) r /\
    t <> [] /\
    (forall c, head t = Some c -> is_js_space c = false) /\
    (forall c, last t = Some c -> is_js_space c = false) /\
    head ((fun w => sessions (state w))
            <$> commits (blocks (sendMessage st env)) (mkWorld st storage))
    = Some (appended cur
              [Message.mk (toString (user_now env)) user t
                 (Some (user_iso env)) None;
               Message.mk (toString (bot_now env + 1)) bot []
                 (Some (bot_iso env)) None]
              (sessions st)) /\
    List.filter is_fetch (sendMessage st env)
    = [Fetch (backend env ++ str "/ask")
         (stringify (JObj [(str "question", JStr t)]))].
Proof.
  intros Hin Hcur Htr.
  destruct (trim_spec (input st) Hin) as ((l & r & Hs & Hl & Hr) & Hne & Hh & Hla & _).
  exists l, (trim (input st)), r.
  split; [exact Hs|]. split; [exact Hl|]. split; [exact Hr|].
  split; [exact Hne|]. split; [exact Hh|]. split; [exact Hla|]. split.
  - destruct (sendMessage_first st env storage cur Hin Hcur Htr)
      as (w_asked & -> & Hasked).
    cbn [fmap list_fmap head]. rewrite Hasked. reflexivity.
  - rewrite (sendMessage_script st env cur Hin Hcur Htr).
    rewrite List.filter_app. cbn [List.filter is_fetch addMessage app].
    rewrite List.filter_app, on_outcome_no_fetch. reflexivity.
Qed.

Lemma userMsg_trimmed_witness :
  exists l t r,
    str " hi " = l ++ t ++ r /\
    Forall (fun c => is_js_space c = true) l /\
    Forall (fun c => is_js_space c = true) r /\
    t <> [] /\
    (forall c, head t = Some c -> is_js_space c = false) /\
    (forall c, last t = Some c -> is_js_space c = false) /\
    head ((fun w => sessions (state w))
            <$> commits (blocks (sendMessage st_asking env_failed))
                  (mkWorld st_asking ∅))
    = Some (appended (str "1")
              [Message.mk (str "100") user t (Some (str "t")) None;
               Message.mk (str "101") bot [] (Some (str "t")) None]
              [session_2; session_1]) /\
    List.filter is_fetch (sendMessage st_asking env_failed)
    = [Fetch (str "http://127.0.0.1:8000/ask")
         (stringify (JObj [(str "question", JStr t)]))].
Proof.
  exact (userMsg_trimmed st_asking env_failed ∅ (str "1")
           eq_refl eq_refl eq_refl).
Defined.

(** ** The time an exchange takes to type its answer *)

(** The sum of the timers a script awaits. *)
Definition delay (script : list Action) : N :=
  foldr (fun a acc => match a with Sleep ms => ms + acc | _ => acc end) 0 script.

Lemma delay_app (s1 s2 : list Action) : delay (s1 ++ s2) = delay s1 + delay s2.
Proof.
  induction s1 as [|a s1 IH]; [reflexivity|].
  cbn [app delay foldr] in *. fold (delay (s1 ++ s2)). fold (delay s1).
  rewrite IH. destruct a; lia.
Qed.

Lemma delay_typing cur botId (displayed remaining : jsstring) :
  delay (typing cur botId displayed remaining) = 15 * N.of_nat (length remaining).
Proof.
  revert displayed. induction remaining as [|c rest IH]; intros displayed;
    [reflexivity|].
  cbn [typing delay foldr length].
  fold (delay (typing cur botId (displayed ++ [c]) rest)). rewrite IH. lia.
Qed.

(** X10: the timers of an exchange add up to 15 for each code unit of the
    answer when the backend answers with a status in 200-299 and a body
    that can be read, and to nothing when it answers with another
    status. *)
Theorem exchange_delay (st : State) (env : SendEnv) (cur : jsstring) :
  truthy (trim (input st)) = true ->
  currentSessionId st = Some cur ->
  truthy cur = true ->
  (forall status data,
     outcome env = Responded status (inr data) -> ok status = true ->
     delay (sendMessage st env)
     = 15 * N.of_nat (length (default [] (answer data)))) /\
  (forall status body,
     outcome env = Responded status body -> ok status = false ->
     delay (sendMessage st env) = 0).
Proof.
  intros Hin Hcur Htr.
  rewrite (sendMessage_script st env cur Hin Hcur Htr).
  split.
  - intros status data Ho Hok. rewrite delay_app. cbn [addMessage app delay foldr].
    fold (delay (on_outcome (Some cur) (Message.id (botMsg env)) (outcome env)
                 ++ [SetLoading false])).
    rewrite delay_app. unfold on_outcome. rewrite Ho, Hok.
    cbn [delay foldr].
    fold (delay (typing (Some cur) (Message.id (botMsg env)) []
                   (default [] (answer data))
                 ++ [SetSessions
                       (in_session (Some cur)
                          (patch (Message.id (botMsg env))
                             (fun m => Message.with_text_sources m
                                (default [] (answer data))
                                (default [] (data_sources data)))))])).
    rewrite delay_app, delay_typing. cbn [delay foldr]. lia.
  - intros status body Ho Hok. rewrite delay_app. cbn [addMessage app delay foldr].
    fold (delay (on_outcome (Some cur) (Message.id (botMsg env)) (outcome env)
                 ++ [SetLoading false])).
    rewrite delay_app. unfold on_outcome. rewrite Ho, Hok. reflexivity.
Qed.

Lemma exchange_delay_witness :
  delay (sendMessage st_asking env_answered) = 30 /\
  delay (sendMessage st_asking env_failed) = 0.
Proof.
  split.
  - exact (proj1 (exchange_delay st_asking env_answered (str "1")
             eq_refl eq_refl eq_refl)
             200 (mkAskData (Some (str "ok")) None) eq_refl eq_refl).
  - exact (proj2 (exchange_delay st_asking env_failed (str "1")
             eq_refl eq_refl eq_refl)
             500 (inl OtherValue) eq_refl eq_refl).
Defined.

(** ** Deleting a session, when the first one stays *)

Lemma deleteSession_other_cases_witness :
  let st := mkState [session_2; session_1] (Some (str "1")) [] false in
  let w' := commit (deleteSession st (str "1")) (mkWorld st ∅) in
  sessions (state w') = [session_2] /\
  currentSessionId (state w') = Some (str "2").
Proof.
  intros st w'.
  destruct (deleteSession_other_cases st (str "1") ∅) as (H1 & H2 & _ & _).
  split; [exact H1|].
  exact (H2 session_2 [session_1] eq_refl ltac:(discriminate) eq_refl eq_refl).
Defined.

(** ** The conversation pane *)

(** The hourglass U+23F3 and the text after it. *)
Definition typing_indicator : jsstring := 9203 :: str " Typing...".

(** What the pane renders of one message: the side it is on, the text in
    the bubble, and the line of source links when there is one. *)
Record Bubble : Type := mkBubble {
  author : Role;
  body : jsstring;
  links : option (list jsstring);
}.

(** [role === 'bot'] *)
Definition is_bot (r : Role) : bool :=
  match r with
  | bot => true
  | user => false
  end.

(** [m.text || (m.role === 'bot' && loading ? typing_indicator : '')] and
    [m.sources && m.sources.length > 0 && (the links)]. *)
Definition bubble (loading : bool) (m : Message.t) : Bubble :=
  mkBubble (Message.role m)
    (if truthy (Message.text m) then Message.text m
     else if is_bot (Message.role m) && loading then typing_indicator
     else [])
    (match Message.sources m with
     | Some (x :: l) => Some (x :: l)
     | _ => None
     end).

(** [currentSession?.messages.map(...)] *)
Definition bubbles (st : State) : list Bubble :=
  match currentSession st with
  | Some s => bubble (loading st) <$> ChatSession.messages s
  | None => []
  end.

(** [currentSession?.messages.length === 0]: the invitation to ask. *)
Definition prompt_shown (st : State) : bool :=
  match currentSession st with
  | Some s => bool_decide (length (ChatSession.messages s) = 0%nat)
  | None => false
  end.

Lemma find_session_middle (cur : jsstring) (s' : ChatSession.t)
    (pre post : list ChatSession.t) :
  cur ∉ ids pre -> ChatSession.id s' = cur ->
  find (fun s => bool_decide (Some (ChatSession.id s) = Some cur))
       (pre ++ s' :: post) = Some s'.
Proof.
  unfold ids. intros Hpre Hs. induction pre as [|s0 pre IH]; cbn [app find].
  - rewrite bool_decide_eq_true_2 by (f_equal; exact Hs). reflexivity.
  - rewrite fmap_cons in Hpre. apply not_elem_of_cons in Hpre as [Hne Hpre].
    rewrite bool_decide_eq_false_2
      by (intros [= H]; apply Hne; symmetry; exact H).
    apply IH, Hpre.
Qed.

Section Pane.
Variable st : State.
Variable env : SendEnv.
Variable storage : gmap jsstring jsstring.
Variable cur : jsstring.
Variable s : ChatSession.t.
Variables pre post : list ChatSession.t.

Hypothesis Hinput : truthy (trim (input st)) = true.
Hypothesis Hcur : currentSessionId st = Some cur.
Hypothesis Htruthy : truthy cur = true.
Hypothesis Hsessions : sessions st = pre ++ s :: post.
Hypothesis Hs : ChatSession.id s = cur.
Hypothesis Hpre : cur ∉ ids pre.
Hypothesis Hpost : cur ∉ ids post.
Hypothesis Hclock : user_now env <= bot_now env.
Hypothesis Hfresh : Message.id (botMsg env) ∉ Message.id <$> ChatSession.messages s.

Local Abbreviation shown' := (shown st env s pre post).

(** The state in which the placeholder is [m]. *)
Definition showing (m : Message.t) (loading : bool) : State :=
  mkState (shown' m) (Some cur) [] loading.

Lemma currentSession_showing (m : Message.t) (ld : bool) :
  currentSession (showing m ld)
  = Some (ChatSession.with_messages s
            (ChatSession.messages s ++ [userMsg st env; m])).
Proof.
  unfold currentSession, showing, shown. cbn [sessions currentSessionId].
  apply find_session_middle; [exact Hpre|exact Hs].
Qed.

(** The bubble of the placeholder is the last one of the pane. *)
Lemma last_bubble_showing (m : Message.t) (ld : bool) :
  last (bubbles (showing m ld)) = Some (bubble ld m).
Proof.
  unfold bubbles. rewrite currentSession_showing.
  cbn [ChatSession.with_messages ChatSession.messages showing loading].
  replace (ChatSession.messages s ++ [userMsg st env; m])
    with ((ChatSession.messages s ++ [userMsg st env]) ++ [m])
    by (rewrite <- app_assoc; reflexivity).
  rewrite fmap_snoc. apply last_snoc.
Qed.

(** The typing loop again, with the whole state at each commit. *)
Lemma typing_commits_states (remaining displayed : jsstring) (w : World)
    (tail : list Action) :
  state w = showing (Message.with_text (botMsg env) displayed) true ->
  exists ws w_end,
    commits (blocks (typing (Some cur) (Message.id (botMsg env)) displayed
                       remaining ++ tail)) w
    = ws ++ commits (blocks tail) w_end /\
    state <$> ws
    = (fun k => showing (Message.with_text (botMsg env)
                           (displayed ++ take k remaining)) true)
      <$> seq 1 (length remaining) /\
    state w_end
    = showing (Message.with_text (botMsg env) (displayed ++ remaining)) true.
Proof.
  revert displayed w. induction remaining as [|c rest IH]; intros displayed w Hw.
  - exists [], w. split; [reflexivity|]. split; [reflexivity|].
    rewrite app_nil_r. exact Hw.
  - cbn [typing app blocks suspends commits].
    set (w' := commit _ w).
    assert (Hw' : state w'
      = showing (Message.with_text (botMsg env) (displayed ++ [c])) true).
    { unfold w'. rewrite commit_sessions.
      cbn [foldl apply_action]. rewrite Hw. unfold showing.
      cbn [sessions currentSessionId input loading state].
      rewrite (in_session_patch_shown st env cur s pre post Hs Hpre Hpost
                 Hclock Hfresh) by reflexivity.
      reflexivity. }
    destruct (IH (displayed ++ [c]) w' Hw') as (ws & w_end & Hc & Hss & Hend).
    exists (w' :: ws), w_end. split; [rewrite Hc; reflexivity|]. split.
    + cbn [length]. rewrite fmap_cons.
      change (seq 1 (S (length rest))) with (1%nat :: seq 2 (length rest)).
      rewrite fmap_cons. f_equal; [exact Hw'|].
      rewrite Hss, <- (fmap_S_seq 1), <- list_fmap_compose.
      apply list_fmap_ext. intros _ k _. cbn [compose take].
      rewrite <- app_assoc. reflexivity.
    + rewrite Hend, <- app_assoc. reflexivity.
Qed.

Lemma asked_state :
  state (asked st env storage cur s pre post) = showing (botMsg env) true.
Proof. reflexivity. Qed.
(** The line of links under a bubble: none for an empty list. *)
Definition links_of (srcs : list jsstring) : option (list jsstring) :=
  match srcs with
  | [] => None
  | _ :: _ => Some srcs
  end.

Lemma bubble_typed (k : nat) (ans : jsstring) :
  (1 <= k)%nat -> (k <= length ans)%nat ->
  bubble true (Message.with_text (botMsg env) (take k ans))
  = mkBubble bot (take k ans) None.
Proof.
  intros H1 H2. destruct k as [|k]; [lia|].
  destruct ans as [|c ans]; [cbn [length] in H2; lia|]. reflexivity.
Qed.

Lemma bubble_final (t : jsstring) (srcs : list jsstring) :
  bubble false (Message.with_text_sources (botMsg env) t srcs)
  = mkBubble bot t (links_of srcs).
Proof. destruct t, srcs; reflexivity. Qed.

(** X11: what the pane shows in the bubble of the placeholder, commit
    after commit.  On a successful answer: the typing indicator; then, for
    each k from 1 to the length of the answer, the first k characters of
    the answer, without links; then the whole answer (an empty bubble for
    an empty answer) with the sources as links when there is at least one.
    When the request is rejected or answered with a status outside
    200-299: the typing indicator, then the error indicator followed by the
    reason, without links. *)
Theorem placeholder_bubble :
  (forall status data,
     outcome env = Responded status (inr data) -> ok status = true ->
     let ans := default [] (answer data) in
     let srcs := default [] (data_sources data) in
     (fun w => last (bubbles (state w)))
       <$> commits (blocks (sendMessage st env)) (mkWorld st storage)
     = Some (mkBubble bot typing_indicator None)
       :: ((fun k => Some (mkBubble bot (take k ans) None)) <$> seq 1 (length ans))
       ++ [Some (mkBubble bot ans (links_of srcs))]) /\
  (forall reason,
     (outcome env = Rejected (ErrorObject reason) \/
      (outcome env = Rejected OtherValue /\ reason = str "Unknown error") \/
      exists status body,
        outcome env = Responded status body /\ ok status = false /\
        reason = str "Server error: " ++ toString status) ->
     (fun w => last (bubbles (state w)))
       <$> commits (blocks (sendMessage st env)) (mkWorld st storage)
     = [Some (mkBubble bot typing_indicator None);
        Some (mkBubble bot (error_indicator ++ reason) None)]).
Proof.
  pose proof (sendMessage_blocks st env storage cur s pre post Hinput Hcur
                Htruthy Hsessions Hs Hpre Hpost Hfresh) as Hblocks.
  assert (Hfirst : last (bubbles (state (asked st env storage cur s pre post)))
                   = Some (mkBubble bot typing_indicator None)).
  { rewrite asked_state, last_bubble_showing. reflexivity. }
  split.
  - intros status data Ho Hok ans srcs. rewrite Hblocks.
    unfold on_outcome. rewrite Ho, Hok. fold ans. fold srcs.
    cbn [app blocks suspends commits]. rewrite <- app_assoc.
    destruct (typing_commits_states ans [] (asked st env storage cur s pre post)
                ([SetSessions
                    (in_session (Some cur)
                       (patch (Message.id (botMsg env))
                          (fun m => Message.with_text_sources m ans srcs)))]
                 ++ [SetLoading false]))
      as (tw & w_end & Hc & Hss & Hend); [apply asked_state|].
    rewrite Hc. cbn [app blocks suspends commits].
    set (w_last := commit _ w_end).
    assert (Hlast : state w_last
      = showing (Message.with_text_sources (botMsg env) ans srcs) false).
    { unfold w_last. rewrite commit_sessions.
      cbn [foldl apply_action]. rewrite Hend. unfold showing.
      cbn [sessions currentSessionId input loading state].
      rewrite (in_session_patch_shown st env cur s pre post Hs Hpre Hpost
                 Hclock Hfresh) by reflexivity.
      reflexivity. }
    rewrite fmap_cons, Hfirst. f_equal.
    rewrite fmap_app, fmap_cons, Hlast, last_bubble_showing, bubble_final.
    f_equal.
    rewrite (list_fmap_compose state (fun st' => last (bubbles st'))), Hss.
    rewrite <- list_fmap_compose.
    apply list_fmap_ext. intros i k Hk. cbn [compose].
    apply lookup_seq in Hk as [-> Hi]. cbn [app].
    rewrite last_bubble_showing, bubble_typed by lia. reflexivity.
  - intros reason Hfail. rewrite Hblocks.
    assert (Ho : on_outcome (Some cur) (Message.id (botMsg env)) (outcome env)
                 = on_error (Some cur) (Message.id (botMsg env))
                     (ErrorObject reason)).
    { destruct Hfail as [->|[[-> ->]|(status & body & -> & Hok & ->)]];
        [reflexivity|reflexivity|].
      unfold on_outcome. rewrite Hok. reflexivity. }
    rewrite Ho. cbn [on_error app blocks suspends commits].
    set (w_last := commit _ (asked st env storage cur s pre post)).
    assert (Hlast : state w_last
      = showing (Message.with_text_sources (botMsg env)
                   (error_indicator ++ reason) []) false).
    { unfold w_last. rewrite commit_sessions.
      cbn [foldl apply_action]. rewrite asked_state. unfold showing.
      cbn [sessions currentSessionId input loading state].
      rewrite (in_session_patch_shown st env cur s pre post Hs Hpre Hpost
                 Hclock Hfresh) by reflexivity.
      reflexivity. }
    rewrite !fmap_cons, Hfirst, Hlast, last_bubble_showing, bubble_final.
    reflexivity.
Qed.
End Pane.

Lemma placeholder_bubble_witness :
  (fun w => last (bubbles (state w)))
    <$> commits (blocks (sendMessage st_asking env_answered))
          (mkWorld st_asking ∅)
  = [Some (mkBubble bot typing_indicator None);
     Some (mkBubble bot (str "o") None);
     Some (mkBubble bot (str "ok") None);
     Some (mkBubble bot (str "ok") None)].
Proof.
  exact (proj1 (placeholder_bubble st_asking env_answered ∅ (str "1")
    session_1 [session_2] [] eq_refl eq_refl eq_refl eq_refl eq_refl
    session_1_alone (not_elem_of_nil _) (N.le_refl _) (not_elem_of_nil _))
    200 (mkAskData (Some (str "ok")) None) eq_refl eq_refl).
Defined.
